(** * TrueTouch BLE UART protocol: command dispatch and pulse scheduler

    A shallow embedding of [arduino/util.hpp] and [arduino/truetouch.{hpp,cpp}]
    together with the properties of the framing/dispatch engine and of the
    bitmask-addressed pulse scheduler.

    Conventions of the embedding:
    - [std::uint32_t] values are integers of [Z] in the range [0, 2^32); every
      operation that can leave the range has its wrap-around written out.
    - The BLE UART receive FIFO is a list of bytes, oldest first.
    - Pin I/O and the unconditional [Serial.println] diagnostics are recorded
      in an append-only trace of events.
    - Each call to [millis()] is an explicit argument: the reading returned by
      the clock at that call site.
    - The host is little-endian (nRF52840), which fixes what [memcpy] into a
      packed struct yields. *)

From Stdlib Require Import String.
From Stdlib Require Import ZArith List Lia Bool Sorted.
From Stdlib.Strings Require Import Byte.
Import ListNotations.
Local Open Scope Z_scope.

(** ** Machine integers *)

Definition u32 (x : Z) : Prop := 0 <= x < 2 ^ 32.

Definition wrap32 (x : Z) : Z := x mod 2 ^ 32.

(** ** util.hpp *)

Module util.

(** [__builtin_bswap32]. *)
Definition byte_swap32 (input : Z) : Z :=
  Z.lor (Z.lor (Z.shiftl (Z.land input 0xFF) 24)
               (Z.shiftl (Z.land (Z.shiftr input 8) 0xFF) 16))
        (Z.lor (Z.shiftl (Z.land (Z.shiftr input 16) 0xFF) 8)
               (Z.land (Z.shiftr input 24) 0xFF)).

(** [is_set(mask, n)]: [n] is an [unsigned int]. *)
Definition is_set (mask : Z) (n : Z) : bool :=
  if 31 <? n then false
  else negb (Z.land mask (Z.shiftl 1 n) =? 0).

(** The loop of [get_highest_bit] with [i] still to visit [i-1 .. 0]. *)
Fixpoint highest_bit_below (i : nat) (mask : Z) : Z :=
  match i with
  | O => -1
  | S j =>
      if negb (Z.land mask (Z.shiftl 1 (Z.of_nat j)) =? 0)
      then Z.of_nat j
      else highest_bit_below j mask
  end.

Definition get_highest_bit (mask : Z) : Z := highest_bit_below 32 mask.

(** [mask &= ~(1UL << n)], the complement taken on 32 bits. *)
Definition clear_highest_bit (mask : Z) : Z :=
  let n := get_highest_bit mask in
  if 0 <=? n
  then Z.land mask (Z.lxor (Z.shiftl 1 n) 0xFFFFFFFF)
  else mask.

End util.

(** ** Draining a mask (the scheduler's use of the two helpers) *)

(** Number of set bits among the positions below [n]. *)
Fixpoint count_bits (n : nat) (m : Z) : nat :=
  match n with
  | O => O
  | S j => (if Z.testbit m (Z.of_nat j) then 1 else 0) + count_bits j m
  end.

Definition popcount (m : Z) : nat := count_bits 32 m.

(** [k] rounds of [get_highest_bit] followed by [clear_highest_bit]: the
    indices reported, in order, and the mask that is left. *)
Fixpoint drain (k : nat) (mask : Z) : list Z * Z :=
  match k with
  | O => ([], mask)
  | S k' =>
      let i := util.get_highest_bit mask in
      let r := drain k' (util.clear_highest_bit mask) in
      (i :: fst r, snd r)
  end.

(** ** truetouch.hpp / truetouch.cpp *)

Module TrueTouch.

(** Value of a byte as an integer in [0, 255]. *)
Definition byte_val (b : byte) : Z := Z.of_N (Byte.to_N b).

(** A 32-bit field as [memcpy] lays it out on the little-endian host. *)
Definition le32 (b0 b1 b2 b3 : byte) : Z :=
  Z.lor (Z.lor (byte_val b0) (Z.shiftl (byte_val b1) 8))
        (Z.lor (Z.shiftl (byte_val b2) 16) (Z.shiftl (byte_val b3) 24)).

(** *** Public types *)

(** [enum class Command : std::uint8_t]. *)
Definition SOLENOID_WRITE : Z := 0x01.
Definition SOLENOID_PULSE : Z := 0x02.
Definition ERM_SET : Z := 0x03.

(** [enum class GpioOutput : std::uint8_t]. *)
Definition OUT_LOW : byte := x00.
Definition OUT_HIGH : byte := x01.

Record SolenoidWrite := {
  sw_command : byte;
  sw_finger_bitset : Z;
  sw_output : byte
}.

Record SolenoidPulse := {
  sp_command : byte;
  sp_finger_bitset : Z;
  sp_duration_ms : Z
}.

Record ErmSet := {
  es_command : byte;
  es_finger_bitset : Z;
  es_intensity : byte
}.

(** What [parse_bytes<T>] needs of a packed struct [T]: its size, its
    value-initialised form [T{}] and the effect of [memcpy] into it. *)
Class Packed (T : Type) := {
  sizeof : nat;
  zero_init : T;
  memcpy_from : list byte -> T
}.
Arguments sizeof T {_}.
Arguments zero_init T {_}.

#[export] Instance Packed_SolenoidWrite : Packed SolenoidWrite := {
  sizeof := 6;
  zero_init := {| sw_command := x00; sw_finger_bitset := 0; sw_output := x00 |};
  memcpy_from buf :=
    {| sw_command := nth 0 buf x00;
       sw_finger_bitset :=
         le32 (nth 1 buf x00) (nth 2 buf x00) (nth 3 buf x00) (nth 4 buf x00);
       sw_output := nth 5 buf x00 |}
}.

#[export] Instance Packed_SolenoidPulse : Packed SolenoidPulse := {
  sizeof := 9;
  zero_init := {| sp_command := x00; sp_finger_bitset := 0; sp_duration_ms := 0 |};
  memcpy_from buf :=
    {| sp_command := nth 0 buf x00;
       sp_finger_bitset :=
         le32 (nth 1 buf x00) (nth 2 buf x00) (nth 3 buf x00) (nth 4 buf x00);
       sp_duration_ms :=
         le32 (nth 5 buf x00) (nth 6 buf x00) (nth 7 buf x00) (nth 8 buf x00) |}
}.

#[export] Instance Packed_ErmSet : Packed ErmSet := {
  sizeof := 6;
  zero_init := {| es_command := x00; es_finger_bitset := 0; es_intensity := x00 |};
  memcpy_from buf :=
    {| es_command := nth 0 buf x00;
       es_finger_bitset :=
         le32 (nth 1 buf x00) (nth 2 buf x00) (nth 3 buf x00) (nth 4 buf x00);
       es_intensity := nth 5 buf x00 |}
}.

(** *** Public constants *)

Definition SOLENOID_COUNT : nat := 5.
Definition ERM_COUNT : nat := 6.

(** *** The outside world: pin I/O and the serial console *)

Inductive event :=
| PinModeOutput (pin : Z)
| DigitalWrite (pin : Z) (high : bool)
| AnalogWrite (pin : Z) (value : byte)
| SerialPrintln (msg : String.string).

(** *** Internal data

    [_uart] is the receive FIFO behind the [BLEUart] pointer; [trace] is the
    history of the effects on the outside world. Output of the [DBG_LOG]
    macros is not recorded. *)
Record state := {
  _uart : list byte;
  _fingers_to_pulse : Z;
  _pulse_dur_ms : Z;
  _pulse_start_ms : Z;
  _solenoid_pins : list Z;
  _erm_pins : list Z;
  trace : list event
}.

Definition set_uart (rx : list byte) (s : state) : state :=
  {| _uart := rx;
     _fingers_to_pulse := _fingers_to_pulse s;
     _pulse_dur_ms := _pulse_dur_ms s;
     _pulse_start_ms := _pulse_start_ms s;
     _solenoid_pins := _solenoid_pins s;
     _erm_pins := _erm_pins s;
     trace := trace s |}.

Definition set_fingers_to_pulse (v : Z) (s : state) : state :=
  {| _uart := _uart s;
     _fingers_to_pulse := v;
     _pulse_dur_ms := _pulse_dur_ms s;
     _pulse_start_ms := _pulse_start_ms s;
     _solenoid_pins := _solenoid_pins s;
     _erm_pins := _erm_pins s;
     trace := trace s |}.

Definition set_pulse_dur_ms (v : Z) (s : state) : state :=
  {| _uart := _uart s;
     _fingers_to_pulse := _fingers_to_pulse s;
     _pulse_dur_ms := v;
     _pulse_start_ms := _pulse_start_ms s;
     _solenoid_pins := _solenoid_pins s;
     _erm_pins := _erm_pins s;
     trace := trace s |}.

Definition set_pulse_start_ms (v : Z) (s : state) : state :=
  {| _uart := _uart s;
     _fingers_to_pulse := _fingers_to_pulse s;
     _pulse_dur_ms := _pulse_dur_ms s;
     _pulse_start_ms := v;
     _solenoid_pins := _solenoid_pins s;
     _erm_pins := _erm_pins s;
     trace := trace s |}.

Definition emit (e : event) (s : state) : state :=
  {| _uart := _uart s;
     _fingers_to_pulse := _fingers_to_pulse s;
     _pulse_dur_ms := _pulse_dur_ms s;
     _pulse_start_ms := _pulse_start_ms s;
     _solenoid_pins := _solenoid_pins s;
     _erm_pins := _erm_pins s;
     trace := trace s ++ [e] |}.

(** *** Collaborators *)

Definition pinMode_OUTPUT (pin : Z) : state -> state := emit (PinModeOutput pin).
Definition digitalWrite (pin : Z) (high : bool) : state -> state :=
  emit (DigitalWrite pin high).
Definition analogWrite (pin : Z) (value : byte) : state -> state :=
  emit (AnalogWrite pin value).
Definition Serial_println (msg : String.string) : state -> state :=
  emit (SerialPrintln msg).

Definition HIGH : bool := true.
Definition LOW : bool := false.

(** [_uart->available()]. *)
Definition available (s : state) : Z := Z.of_nat (length (_uart s)).

(** [_uart->peek()]: the oldest byte, or -1 when the FIFO is empty. *)
Definition peek (s : state) : Z :=
  match _uart s with
  | [] => -1
  | b :: _ => byte_val b
  end.

(** [_uart->read(buf, n)]. *)
Definition read (n : nat) (s : state) : list byte * state :=
  (firstn n (_uart s), set_uart (skipn n (_uart s)) s).

(** A C array indexed in bounds; every use below is guarded. *)
Definition at_index (pins : list Z) (idx : nat) : Z := nth idx pins 0.

(** *** Construction and [init] *)

Definition new (rx : list byte) (solenoid_pins erm_pins : list Z) : state :=
  {| _uart := rx;
     _fingers_to_pulse := 0;
     _pulse_dur_ms := 0;
     _pulse_start_ms := 0;
     _solenoid_pins := firstn SOLENOID_COUNT solenoid_pins;
     _erm_pins := firstn ERM_COUNT erm_pins;
     trace := [] |}.

Definition init (s : state) : state :=
  let s :=
    fold_left (fun s i =>
                 digitalWrite (at_index (_solenoid_pins s) i) LOW
                   (pinMode_OUTPUT (at_index (_solenoid_pins s) i) s))
              (seq 0 SOLENOID_COUNT) s in
  fold_left (fun s i =>
               digitalWrite (at_index (_erm_pins s) i) LOW
                 (pinMode_OUTPUT (at_index (_erm_pins s) i) s))
            (seq 0 ERM_COUNT) s.

(** *** [parse_bytes<T>] *)

Definition parse_bytes (T : Type) `{Packed T} (s : state) : T * state :=
  if (Z.to_nat (available s) <? sizeof T)%nat then
    (zero_init T, Serial_println "Trying to parse without enough bytes!"%string s)
  else
    let (read_buffer, s) := read (sizeof T) s in
    (memcpy_from read_buffer, s).

(** *** Command handlers *)

Definition handle_solenoid_write (s : state) : state :=
  let number_of_bytes := Z.to_nat (available s) in
  if (number_of_bytes <? sizeof SolenoidWrite)%nat then s
  else
    let (params, s) := parse_bytes SolenoidWrite s in
    let finger_bitset := util.byte_swap32 (sw_finger_bitset params) in
    fold_left (fun s pin_idx =>
                 if util.is_set finger_bitset (Z.of_nat pin_idx)
                 then digitalWrite (at_index (_solenoid_pins s) pin_idx)
                        (Byte.eqb (sw_output params) OUT_HIGH) s
                 else s)
              (seq 0 SOLENOID_COUNT) s.

(** The guard [pin_idx < 0 || pin_idx >= ERM_COUNT]. *)
Definition invalid_pulse_index (pin_idx : Z) : bool :=
  (pin_idx <? 0) || (Z.of_nat ERM_COUNT <=? pin_idx).

(** [now] is the reading of [millis()] at the end of the handler. *)
Definition handle_solenoid_pulse (now : Z) (s : state) : state :=
  let number_of_bytes := Z.to_nat (available s) in
  if (number_of_bytes <? sizeof SolenoidPulse)%nat then s
  else
    let (params, s) := parse_bytes SolenoidPulse s in
    let finger_bitset := util.byte_swap32 (sp_finger_bitset params) in
    let duration_ms := util.byte_swap32 (sp_duration_ms params) in
    let s := set_fingers_to_pulse finger_bitset s in
    let s := set_pulse_dur_ms duration_ms s in
    if _fingers_to_pulse s =? 0 then s
    else
      let pin_idx := util.get_highest_bit (_fingers_to_pulse s) in
      if invalid_pulse_index pin_idx then
        set_fingers_to_pulse 0 (Serial_println "!!! Invalid values in pulse"%string s)
      else
        let pin := at_index (_erm_pins s) (Z.to_nat pin_idx) in
        let s := digitalWrite pin HIGH s in
        set_pulse_start_ms now s.

Definition handle_erm_set (s : state) : state :=
  let number_of_bytes := Z.to_nat (available s) in
  if (number_of_bytes <? sizeof ErmSet)%nat then s
  else
    let (params, s) := parse_bytes ErmSet s in
    let finger_bitset := util.byte_swap32 (es_finger_bitset params) in
    fold_left (fun s pin_idx =>
                 if util.is_set finger_bitset (Z.of_nat pin_idx)
                 then analogWrite (at_index (_erm_pins s) pin_idx)
                        (es_intensity params) s
                 else s)
              (seq 0 ERM_COUNT) s.

(** *** The pulse scheduler

    [now] is the reading of [millis()] in the hold check and [now'] the
    reading taken when the next pulse starts. The difference is taken on
    32 bits. *)
Definition service_gpio_pulse (now now' : Z) (s : state) : state :=
  if _fingers_to_pulse s =? 0 then s
  else if wrap32 (now - _pulse_start_ms s) <? _pulse_dur_ms s then s
  else
    let pin_idx := util.get_highest_bit (_fingers_to_pulse s) in
    if invalid_pulse_index pin_idx then
      set_fingers_to_pulse 0 (Serial_println "!!! Invalid values in pulse"%string s)
    else
      let pin := at_index (_erm_pins s) (Z.to_nat pin_idx) in
      let s := digitalWrite pin LOW s in
      let s := set_fingers_to_pulse
                 (util.clear_highest_bit (_fingers_to_pulse s)) s in
      if _fingers_to_pulse s =? 0 then set_pulse_start_ms 0 s
      else
        let pin_idx := util.get_highest_bit (_fingers_to_pulse s) in
        if invalid_pulse_index pin_idx then
          set_fingers_to_pulse 0
            (Serial_println "!!! Invalid values in pulse"%string s)
        else
          let pin := at_index (_erm_pins s) (Z.to_nat pin_idx) in
          let s := digitalWrite pin HIGH s in
          set_pulse_start_ms now' s.

(** *** [service]

    The readings of [millis()] at the three call sites one call of
    [service] can reach, in program order. *)
Record clock := {
  at_hold_check : Z;
  at_next_pulse : Z;
  at_trigger : Z
}.

(** A tick during which the clock does not advance. *)
Definition instant (t : Z) : clock :=
  {| at_hold_check := t; at_next_pulse := t; at_trigger := t |}.

Definition service (c : clock) (s : state) : state :=
  let s := service_gpio_pulse (at_hold_check c) (at_next_pulse c) s in
  if available s <=? 0 then s
  else
    let command := peek s mod 256 in
    if command =? SOLENOID_WRITE then handle_solenoid_write s
    else if command =? SOLENOID_PULSE then handle_solenoid_pulse (at_trigger c) s
    else if command =? ERM_SET then handle_erm_set s
    else s.

(** *** The driving loop and the transport *)

(** The BLE stack appends newly received bytes to the FIFO. *)
Definition deliver (bytes : list byte) (s : state) : state :=
  set_uart (_uart s ++ bytes) s.

(** One loop iteration: whatever arrived since the last one, then [service]. *)
Definition poll (d : list byte * clock) (s : state) : state :=
  service (snd d) (deliver (fst d) s).

Definition run (ds : list (list byte * clock)) (s : state) : state :=
  fold_left (fun s d => poll d s) ds s.

(** States the device can be in: constructed, then initialised and driven. *)
Inductive reachable : state -> Prop :=
| reach_new rx sol erm :
    length sol = SOLENOID_COUNT -> length erm = ERM_COUNT ->
    reachable (new rx sol erm)
| reach_init s :
    reachable s -> reachable (init s)
| reach_deliver bytes s :
    reachable s -> reachable (deliver bytes s)
| reach_service c s :
    reachable s -> reachable (service c s).

End TrueTouch.

Import TrueTouch.

(** ** Vocabulary of the properties *)

(** The frame width implied by a recognised opcode byte. *)
Definition frame_width (opcode : byte) : option nat :=
  if byte_val opcode =? SOLENOID_WRITE then Some (sizeof SolenoidWrite)
  else if byte_val opcode =? SOLENOID_PULSE then Some (sizeof SolenoidPulse)
  else if byte_val opcode =? ERM_SET then Some (sizeof ErmSet)
  else None.

(** The handler [service] routes a recognised opcode to. *)
Definition handler_of (opcode : byte) (now : Z) (s : state) : state :=
  if byte_val opcode =? SOLENOID_WRITE then handle_solenoid_write s
  else if byte_val opcode =? SOLENOID_PULSE then handle_solenoid_pulse now s
  else if byte_val opcode =? ERM_SET then handle_erm_set s
  else s.

(** A 32-bit field as decoded from four consecutive frame bytes. *)
Definition decode32 (b0 b1 b2 b3 : byte) : Z :=
  util.byte_swap32 (le32 b0 b1 b2 b3).

(** The same deliveries with the bytes withheld. *)
Definition silent (ds : list (list byte * clock)) : list (list byte * clock) :=
  map (fun d => ([], snd d)) ds.

(** What a pin is driven to. *)
Inductive output :=
| Level (high : bool)
| Pwm (value : byte).

Definition drive (pin : Z) (acc : option output) (e : event) : option output :=
  match e with
  | DigitalWrite p v => if p =? pin then Some (Level v) else acc
  | AnalogWrite p v => if p =? pin then Some (Pwm v) else acc
  | _ => acc
  end.

(** The last value written to [pin] in a trace, if any. *)
Definition pin_output (tr : list event) (pin : Z) : option output :=
  fold_left (drive pin) tr None.

(** The scheduler state of the pulse job. *)
Definition with_job (mask dur start : Z) (s : state) : state :=
  set_pulse_start_ms start (set_pulse_dur_ms dur (set_fingers_to_pulse mask s)).

(** What every reachable job satisfies: the mask fits 32 bits and its highest
    set bit passes the scheduler's guard. *)
Definition job_valid (s : state) : Prop :=
  u32 (_fingers_to_pulse s) /\
  util.get_highest_bit (_fingers_to_pulse s) < Z.of_nat ERM_COUNT /\
  length (_erm_pins s) = ERM_COUNT /\
  length (_solenoid_pins s) = SOLENOID_COUNT.

(** The events a pulse job may produce in state [s]: a digital write to an
    entry of the ERM table, or the diagnostic line. *)
Definition erm_event (s : state) (e : event) : Prop :=
  (exists i high, (i < ERM_COUNT)%nat /\
                  e = DigitalWrite (at_index (_erm_pins s) i) high) \/
  (exists msg, e = SerialPrintln msg).

(** The same device wired to another solenoid pin table. *)
Definition set_solenoid_pins (pins : list Z) (s : state) : state :=
  {| _uart := _uart s;
     _fingers_to_pulse := _fingers_to_pulse s;
     _pulse_dur_ms := _pulse_dur_ms s;
     _pulse_start_ms := _pulse_start_ms s;
     _solenoid_pins := pins;
     _erm_pins := _erm_pins s;
     trace := trace s |}.

(** Everything of a state but the FIFO and the trace: the scheduler fields
    and the two pin tables. *)
Definition device (s : state) : Z * Z * Z * list Z * list Z :=
  (_fingers_to_pulse s, _pulse_dur_ms s, _pulse_start_ms s,
   _solenoid_pins s, _erm_pins s).

(** The state after a due scheduler step of a job with mask [m] whose highest
    set bit is [i], as the specification describes it: actuator [i] is
    deactivated and its bit cleared; if that empties the mask the start time
    is reset, otherwise the actuator at the new highest set bit is activated
    and the start time becomes [now']. *)
Definition pulse_step_result (now' : Z) (s : state) : state :=
  let m := _fingers_to_pulse s in
  let i := util.get_highest_bit m in
  let m' := util.clear_highest_bit m in
  let low := DigitalWrite (at_index (_erm_pins s) (Z.to_nat i)) LOW in
  if m' =? 0 then
    {| _uart := _uart s;
       _fingers_to_pulse := 0;
       _pulse_dur_ms := _pulse_dur_ms s;
       _pulse_start_ms := 0;
       _solenoid_pins := _solenoid_pins s;
       _erm_pins := _erm_pins s;
       trace := trace s ++ [low] |}
  else
    {| _uart := _uart s;
       _fingers_to_pulse := m';
       _pulse_dur_ms := _pulse_dur_ms s;
       _pulse_start_ms := now';
       _solenoid_pins := _solenoid_pins s;
       _erm_pins := _erm_pins s;
       trace := trace s ++
                [low;
                 DigitalWrite
                   (at_index (_erm_pins s)
                      (Z.to_nat (util.get_highest_bit m'))) HIGH] |}.

(** The state [s0] with the FIFO [rx], the job [(mask, dur, start)] and the
    events [evs] added to its trace. *)
Definition job_state (s0 : state) (rx : list byte) (mask dur start : Z)
  (evs : list event) : state :=
  {| _uart := rx;
     _fingers_to_pulse := mask;
     _pulse_dur_ms := dur;
     _pulse_start_ms := start;
     _solenoid_pins := _solenoid_pins s0;
     _erm_pins := _erm_pins s0;
     trace := trace s0 ++ evs |}.

(** The pulse command for mask {1,3,4} (0x1A) and 50 ms (0x32) on the wire. *)
Definition pulse_134_50 : list byte :=
  [x02; x00; x00; x00; x1a; x00; x00; x00; x32].

(** The ticks of [ds] with the dispatcher left out: scheduler steps only. *)
Definition run_scheduler (ds : list (list byte * clock)) (s : state) : state :=
  fold_left (fun s d =>
               service_gpio_pulse (at_hold_check (snd d)) (at_next_pulse (snd d)) s)
            ds s.

(** A FIFO content the dispatcher has to leave alone: empty, or headed by an
    unrecognised byte, or shorter than the frame its opcode announces. *)
Definition awaiting (rx : list byte) : bool :=
  match rx with
  | [] => true
  | opcode :: _ =>
      match frame_width opcode with
      | None => true
      | Some w => (length rx <? w)%nat
      end
  end.

(** ** bleuart_pin_ctrl.h / bleuart_pin_ctrl.cpp

    The generic pin-control protocol. It keeps no state of its own: a state
    is the receive FIFO behind the [BLEUart] pointer and the history of the
    effects on the outside world. Pins are addressed by their number, which
    is the bit index of the mask. *)

Module BleUartPinCtrl.

(** [enum class Command : std::uint8_t]. *)
Definition GPIO_CONFIGURE : Z := 0x01.
Definition GPIO_SET : Z := 0x02.
Definition GPIO_CLEAR : Z := 0x03.
Definition GPIO_QUERY : Z := 0x04.
Definition PWM_SET : Z := 0x05.
Definition QUERY_STATE : Z := 0x06.

Record GpioConfigure := {
  gc_command : byte;
  gc_gpio_port : Z;
  gc_gpio_bitset : Z;
  gc_gpio_direction : byte
}.

Record GpioSet := {
  gs_command : byte;
  gs_gpio_port : Z;
  gs_gpio_bitset : Z
}.

Record PwmSet := {
  ps_command : byte;
  ps_gpio_port : Z;
  ps_gpio_bitset : Z;
  ps_intensity : byte
}.

#[global] Instance Packed_GpioConfigure : Packed GpioConfigure := {
  sizeof := 10;
  zero_init := {| gc_command := x00; gc_gpio_port := 0; gc_gpio_bitset := 0;
                  gc_gpio_direction := x00 |};
  memcpy_from buf :=
    {| gc_command := nth 0 buf x00;
       gc_gpio_port :=
         le32 (nth 1 buf x00) (nth 2 buf x00) (nth 3 buf x00) (nth 4 buf x00);
       gc_gpio_bitset :=
         le32 (nth 5 buf x00) (nth 6 buf x00) (nth 7 buf x00) (nth 8 buf x00);
       gc_gpio_direction := nth 9 buf x00 |}
}.

#[global] Instance Packed_GpioSet : Packed GpioSet := {
  sizeof := 9;
  zero_init := {| gs_command := x00; gs_gpio_port := 0; gs_gpio_bitset := 0 |};
  memcpy_from buf :=
    {| gs_command := nth 0 buf x00;
       gs_gpio_port :=
         le32 (nth 1 buf x00) (nth 2 buf x00) (nth 3 buf x00) (nth 4 buf x00);
       gs_gpio_bitset :=
         le32 (nth 5 buf x00) (nth 6 buf x00) (nth 7 buf x00) (nth 8 buf x00) |}
}.

#[global] Instance Packed_PwmSet : Packed PwmSet := {
  sizeof := 10;
  zero_init := {| ps_command := x00; ps_gpio_port := 0; ps_gpio_bitset := 0;
                  ps_intensity := x00 |};
  memcpy_from buf :=
    {| ps_command := nth 0 buf x00;
       ps_gpio_port :=
         le32 (nth 1 buf x00) (nth 2 buf x00) (nth 3 buf x00) (nth 4 buf x00);
       ps_gpio_bitset :=
         le32 (nth 5 buf x00) (nth 6 buf x00) (nth 7 buf x00) (nth 8 buf x00);
       ps_intensity := nth 9 buf x00 |}
}.

(** What [Serial.print] is given: a string, a number in hexadecimal, a
    number in decimal. *)
Inductive printed :=
| Text (msg : String.string)
| Hex (v : Z)
| Dec (v : Z).

Inductive event :=
| PinMode (pin : Z) (output : bool)
| DigitalWrite (pin : Z) (high : bool)
| AnalogWrite (pin : Z) (value : byte)
| SerialPrint (p : printed)
| SerialPrintln (p : printed).

Record state := {
  uart : list byte;
  trace : list event
}.

Definition emit (e : event) (s : state) : state :=
  {| uart := uart s; trace := trace s ++ [e] |}.

Definition INPUT : bool := false.
Definition OUTPUT : bool := true.

(** The file's own copy of the byte swap. *)
Definition byte_swap32 (input : Z) : Z :=
  Z.lor (Z.lor (Z.shiftl (Z.land input 0xFF) 24)
               (Z.shiftl (Z.land (Z.shiftr input 8) 0xFF) 16))
        (Z.lor (Z.shiftl (Z.land (Z.shiftr input 16) 0xFF) 8)
               (Z.land (Z.shiftr input 24) 0xFF)).

(** The file's own copy of the bit test. *)
Definition is_set (value : Z) (n : Z) : bool :=
  if 31 <? n then false
  else negb (Z.land value (Z.shiftl 1 n) =? 0).

(** [parse_bytes<T>(uart)]: no guard here; the buffer starts zeroed and
    [read] fills what the FIFO has. *)
Definition parse_bytes (T : Type) `{Packed T} (s : state) : T * state :=
  let read_buffer := firstn (sizeof T) (uart s) in
  (memcpy_from read_buffer,
   {| uart := skipn (sizeof T) (uart s); trace := trace s |}).

Definition handle_gpio_configure (s : state) : state :=
  let number_of_bytes := length (uart s) in
  if (number_of_bytes <? sizeof GpioConfigure)%nat then s
  else
    let (params, s) := parse_bytes GpioConfigure s in
    let gpio_port := byte_swap32 (gc_gpio_port params) in
    let gpio_bitset := byte_swap32 (gc_gpio_bitset params) in
    let s := emit (SerialPrint (Text "GPIO_CONFIGURE: ")) s in
    let s := emit (SerialPrint (Hex gpio_bitset)) s in
    let s := emit (SerialPrint (Text " ")) s in
    let s := emit (SerialPrintln
                     (Dec (byte_val (gc_gpio_direction params)))) s in
    fold_left (fun s pin =>
                 if is_set gpio_bitset (Z.of_nat pin)
                 then if byte_val (gc_gpio_direction params) =? 0
                      then emit (PinMode (Z.of_nat pin) INPUT) s
                      else emit (PinMode (Z.of_nat pin) OUTPUT) s
                 else s)
              (seq 0 32) s.

Definition handle_gpio_write (high : bool) (s : state) : state :=
  let number_of_bytes := length (uart s) in
  if (number_of_bytes <? sizeof GpioSet)%nat then s
  else
    let (params, s) := parse_bytes GpioSet s in
    let gpio_port := byte_swap32 (gs_gpio_port params) in
    let gpio_bitset := byte_swap32 (gs_gpio_bitset params) in
    let s := emit (SerialPrint (Text "GPIO_SET: ")) s in
    let s := emit (SerialPrintln (Hex gpio_bitset)) s in
    fold_left (fun s pin =>
                 if is_set gpio_bitset (Z.of_nat pin)
                 then emit (DigitalWrite (Z.of_nat pin) high) s
                 else s)
              (seq 0 32) s.

Definition handle_gpio_query (s : state) : state :=
  emit (SerialPrintln (Text "GPIO QUERY: TODO")) s.

Definition handle_pwm_set (s : state) : state :=
  let number_of_bytes := length (uart s) in
  if (number_of_bytes <? sizeof PwmSet)%nat then s
  else
    let (params, s) := parse_bytes PwmSet s in
    let gpio_port := byte_swap32 (ps_gpio_port params) in
    let gpio_bitset := byte_swap32 (ps_gpio_bitset params) in
    let s := emit (SerialPrint (Text "PWM_SET: ")) s in
    let s := emit (SerialPrint (Hex gpio_bitset)) s in
    let s := emit (SerialPrint (Text " ")) s in
    let s := emit (SerialPrintln (Dec (byte_val (ps_intensity params)))) s in
    fold_left (fun s pin =>
                 if is_set gpio_bitset (Z.of_nat pin)
                 then emit (AnalogWrite (Z.of_nat pin) (ps_intensity params)) s
                 else s)
              (seq 0 32) s.

Definition handle_query_state (s : state) : state :=
  emit (SerialPrintln (Text "QUERY STATE: TODO")) s.

(** [uart->peek()]. *)
Definition peek (s : state) : Z :=
  match uart s with
  | [] => -1
  | b :: _ => byte_val b
  end.

Definition service (s : state) : state :=
  if Z.of_nat (length (uart s)) <=? 0 then s
  else
    let command := peek s mod 256 in
    if command =? GPIO_CONFIGURE then handle_gpio_configure s
    else if command =? GPIO_SET then handle_gpio_write true s
    else if command =? GPIO_CLEAR then handle_gpio_write false s
    else if command =? GPIO_QUERY then handle_gpio_query s
    else if command =? PWM_SET then handle_pwm_set s
    else if command =? QUERY_STATE then handle_query_state s
    else s.

(** The BLE stack appends newly received bytes to the FIFO. *)
Definition deliver (bytes : list byte) (s : state) : state :=
  {| uart := uart s ++ bytes; trace := trace s |}.

(** The driving loop: one delivery (possibly empty) before each tick. *)
Definition run (ds : list (list byte)) (s : state) : state :=
  fold_left (fun s bytes => service (deliver bytes s)) ds s.

End BleUartPinCtrl.

(** ** Vocabulary of the further properties *)

(** The value four wire bytes stand for, most significant byte first. *)
Definition be32 (b0 b1 b2 b3 : byte) : Z :=
  byte_val b0 * 2 ^ 24 + byte_val b1 * 2 ^ 16 + byte_val b2 * 2 ^ 8
  + byte_val b3.

(** The line [parse_bytes] prints when called without enough bytes. *)
Definition parse_diagnostic : event :=
  SerialPrintln "Trying to parse without enough bytes!"%string.

(** What [init] does to one pin. *)
Definition configure_low (pin : Z) : list event :=
  [PinModeOutput pin; DigitalWrite pin LOW].

(** The pin writes of a job whose holds end one after the other, for the
    indices [idxs] in the order they are served: each index is driven low,
    and the next one, if any, high. *)
Fixpoint hold_ends (pins : list Z) (idxs : list Z) : list event :=
  match idxs with
  | [] => []
  | i :: rest =>
      DigitalWrite (at_index pins (Z.to_nat i)) LOW ::
      match rest with
      | [] => []
      | j :: _ => [DigitalWrite (at_index pins (Z.to_nat j)) HIGH]
      end ++ hold_ends pins rest
  end.

(** Every tick of [ds] finds the current hold over. *)
Fixpoint all_due (ds : list (list byte * clock)) (s : state) : Prop :=
  match ds with
  | [] => True
  | d :: ds' =>
      _pulse_dur_ms s <= wrap32 (at_hold_check (snd d) - _pulse_start_ms s) /\
      all_due ds'
        (service_gpio_pulse (at_hold_check (snd d)) (at_next_pulse (snd d)) s)
  end.

(** The frame width the pin-control dispatcher waits for, for the opcodes
    whose handler reads a frame. *)
Definition pin_ctrl_width (opcode : byte) : option nat :=
  if byte_val opcode =? BleUartPinCtrl.GPIO_CONFIGURE
  then Some (sizeof BleUartPinCtrl.GpioConfigure)
  else if byte_val opcode =? BleUartPinCtrl.GPIO_SET
  then Some (sizeof BleUartPinCtrl.GpioSet)
  else if byte_val opcode =? BleUartPinCtrl.GPIO_CLEAR
  then Some (sizeof BleUartPinCtrl.GpioSet)
  else if byte_val opcode =? BleUartPinCtrl.PWM_SET
  then Some (sizeof BleUartPinCtrl.PwmSet)
  else None.

(** The two opcodes whose handler only prints. *)
Definition pin_ctrl_query (opcode : byte) : option String.string :=
  if byte_val opcode =? BleUartPinCtrl.GPIO_QUERY
  then Some "GPIO QUERY: TODO"%string
  else if byte_val opcode =? BleUartPinCtrl.QUERY_STATE
  then Some "QUERY STATE: TODO"%string
  else None.

(** A FIFO content the pin-control dispatcher leaves alone without any
    effect: empty, headed by a byte that is no opcode, or shorter than the
    frame its opcode announces. *)
Definition pin_ctrl_awaiting (rx : list byte) : bool :=
  match rx with
  | [] => true
  | opcode :: _ =>
      match pin_ctrl_width opcode, pin_ctrl_query opcode with
      | Some w, _ => (length rx <? w)%nat
      | None, Some _ => false
      | None, None => true
      end
  end.

(** ** Proof engineering *)

Arguments util.get_highest_bit : simpl never.
Arguments util.clear_highest_bit : simpl never.
Arguments util.byte_swap32 : simpl never.
Arguments le32 : simpl never.

Ltac unfold_setters :=
  cbv [set_pulse_start_ms set_pulse_dur_ms set_fingers_to_pulse set_uart
       digitalWrite analogWrite Serial_println pinMode_OUTPUT emit];
  cbn [_uart _fingers_to_pulse _pulse_dur_ms _pulse_start_ms _solenoid_pins
       _erm_pins trace].

(** One step of pushing [Z.testbit] through the bit operations of a decoded
    field. *)
Ltac bit1 :=
  match goal with
  | |- context [Z.testbit (Z.lor ?a ?b) ?k] => rewrite (Z.lor_spec a b k)
  | |- context [Z.testbit (Z.land ?a ?b) ?k] => rewrite (Z.land_spec a b k)
  | |- context [Z.testbit (Z.shiftl ?a ?n) ?k] =>
      first [ rewrite (Z.shiftl_spec a n k) by lia
            | rewrite (Z.testbit_neg_r (Z.shiftl a n) k) by lia ]
  | |- context [Z.testbit (Z.shiftr ?a ?n) ?k] =>
      first [ rewrite (Z.shiftr_spec a n k) by lia
            | rewrite (Z.testbit_neg_r (Z.shiftr a n) k) by lia ]
  | |- context [Z.testbit (Z.ones 8) ?k] =>
      first [ rewrite (Z.ones_spec_low 8 k) by lia
            | rewrite (Z.ones_spec_high 8 k) by lia
            | rewrite (Z.testbit_neg_r (Z.ones 8) k) by lia ]
  end.

Ltac case_if :=
  match goal with
  | |- context [if ?b then _ else _] => destruct b eqn:?
  end.

(** ** Bit-level facts *)

Section BitFacts.

Lemma land_bit_test (m i : Z) :
  0 <= i -> (Z.land m (Z.shiftl 1 i) =? 0) = negb (Z.testbit m i).
Proof.
  intros Hi. rewrite Z.shiftl_1_l.
  destruct (Z.testbit m i) eqn:Hb; cbn [negb].
  - apply Z.eqb_neq. intros H0.
    assert (Hx : Z.testbit (Z.land m (2 ^ i)) i = true).
    { rewrite Z.land_spec, Hb, Z.pow2_bits_true by lia. reflexivity. }
    rewrite H0, Z.bits_0 in Hx. discriminate.
  - apply Z.eqb_eq. apply Z.bits_inj'. intros j Hj.
    rewrite Z.land_spec, Z.bits_0, Z.pow2_bits_eqb by lia.
    destruct (Z.eqb_spec i j); subst; rewrite ?Hb, ?andb_false_r; reflexivity.
Qed.

Lemma u32_high_bits (m j : Z) : u32 m -> 32 <= j -> Z.testbit m j = false.
Proof.
  intros Hm Hj. rewrite <- (Z.mod_small m (2 ^ 32)) by exact Hm.
  apply Z.mod_pow2_bits_high. lia.
Qed.

Lemma u32_of_bits (x : Z) :
  0 <= x -> (forall j, 32 <= j -> Z.testbit x j = false) -> u32 x.
Proof.
  intros Hx Hhi.
  assert (E : x mod 2 ^ 32 = x).
  { apply Z.bits_inj'. intros j Hj.
    destruct (Z_lt_le_dec j 32).
    - apply Z.mod_pow2_bits_low. lia.
    - rewrite Z.mod_pow2_bits_high, Hhi by lia. reflexivity. }
  unfold u32. rewrite <- E. apply Z.mod_pos_bound. lia.
Qed.

Lemma highest_bit_below_absent (n : nat) (m : Z) :
  util.highest_bit_below n m = -1 ->
  forall j, 0 <= j < Z.of_nat n -> Z.testbit m j = false.
Proof.
  induction n as [|n IH]; intros H j Hj; [lia|].
  cbn [util.highest_bit_below] in H.
  rewrite land_bit_test, negb_involutive in H by lia.
  destruct (Z.testbit m (Z.of_nat n)) eqn:Hb; [lia|].
  destruct (Z.eq_dec j (Z.of_nat n)) as [->|Hne]; [exact Hb|].
  apply IH; [exact H | lia].
Qed.

Lemma highest_bit_below_found (n : nat) (m : Z) :
  util.highest_bit_below n m <> -1 ->
  let i := util.highest_bit_below n m in
  0 <= i < Z.of_nat n /\ Z.testbit m i = true /\
  forall j, i < j < Z.of_nat n -> Z.testbit m j = false.
Proof.
  induction n as [|n IH]; intros H; [cbn in H; congruence|].
  cbn [util.highest_bit_below] in *.
  rewrite land_bit_test, negb_involutive in * by lia.
  destruct (Z.testbit m (Z.of_nat n)) eqn:Hb.
  - split; [lia|]. split; [exact Hb|]. intros j Hj. lia.
  - destruct (IH H) as (Hr & Hs & Ha).
    split; [lia|]. split; [exact Hs|]. intros j Hj.
    destruct (Z.eq_dec j (Z.of_nat n)) as [->|Hne]; [exact Hb|].
    apply Ha. lia.
Qed.

Lemma highest_bit_below_range (n : nat) (m : Z) :
  -1 <= util.highest_bit_below n m < Z.of_nat n.
Proof.
  induction n as [|n IH]; cbn [util.highest_bit_below]; [lia|].
  destruct (negb _); lia.
Qed.

Lemma get_highest_bit_range (m : Z) : -1 <= util.get_highest_bit m < 32.
Proof. apply (highest_bit_below_range 32 m). Qed.

Lemma get_highest_bit_zero_iff (m : Z) :
  u32 m -> (util.get_highest_bit m = -1 <-> m = 0).
Proof.
  intros Hm. split.
  - intros H. apply Z.bits_inj'. intros j Hj. rewrite Z.bits_0.
    destruct (Z_lt_le_dec j 32).
    + apply (highest_bit_below_absent 32 m H). lia.
    + apply u32_high_bits; assumption.
  - intros ->. reflexivity.
Qed.

Lemma get_highest_bit_spec (m : Z) :
  u32 m -> m <> 0 ->
  let i := util.get_highest_bit m in
  0 <= i < 32 /\ Z.testbit m i = true /\
  forall j, i < j -> Z.testbit m j = false.
Proof.
  intros Hm Hnz.
  assert (Hne : util.highest_bit_below 32 m <> -1).
  { intros H. apply Hnz. apply get_highest_bit_zero_iff; assumption. }
  destruct (highest_bit_below_found 32 m Hne) as (Hr & Hs & Ha).
  unfold util.get_highest_bit. cbv zeta.
  split; [lia|]. split; [exact Hs|]. intros j Hj.
  destruct (Z_lt_le_dec j 32).
  - apply Ha. lia.
  - apply u32_high_bits; assumption.
Qed.

Lemma clear_highest_bit_zero : util.clear_highest_bit 0 = 0.
Proof. reflexivity. Qed.

Lemma clear_highest_bit_bits (m j : Z) :
  u32 m -> 0 <= j ->
  Z.testbit (util.clear_highest_bit m) j =
  Z.testbit m j && negb (j =? util.get_highest_bit m).
Proof.
  intros Hm Hj. unfold util.clear_highest_bit.
  destruct (Z.leb_spec 0 (util.get_highest_bit m)) as [Hn|Hn].
  - rewrite Z.land_spec, Z.lxor_spec, Z.shiftl_1_l, Z.pow2_bits_eqb by lia.
    destruct (Z_lt_le_dec j 32).
    + change 0xFFFFFFFF with (Z.ones 32).
      rewrite Z.ones_spec_low by lia. rewrite xorb_true_r, Z.eqb_sym.
      reflexivity.
    + rewrite (u32_high_bits m j) by assumption. reflexivity.
  - destruct (Z.eqb_spec j (util.get_highest_bit m)); [lia|].
    rewrite andb_true_r. reflexivity.
Qed.

Lemma clear_highest_bit_u32 (m : Z) : u32 m -> u32 (util.clear_highest_bit m).
Proof.
  intros Hm. apply u32_of_bits.
  - unfold util.clear_highest_bit. destruct (0 <=? _).
    + apply Z.land_nonneg. left. apply Hm.
    + apply Hm.
  - intros j Hj. rewrite clear_highest_bit_bits by (assumption || lia).
    rewrite (u32_high_bits m j) by assumption. reflexivity.
Qed.

Lemma count_bits_zero (n : nat) : count_bits n 0 = O.
Proof.
  induction n as [|n IH]; cbn [count_bits]; [reflexivity|].
  rewrite Z.bits_0, IH. reflexivity.
Qed.

Lemma count_bits_none (n : nat) (m : Z) :
  count_bits n m = O ->
  forall j, 0 <= j < Z.of_nat n -> Z.testbit m j = false.
Proof.
  induction n as [|n IH]; intros H j Hj; [lia|].
  cbn [count_bits] in H.
  destruct (Z.testbit m (Z.of_nat n)) eqn:Hb; [discriminate|].
  destruct (Z.eq_dec j (Z.of_nat n)) as [->|Hne]; [exact Hb|].
  apply IH; [exact H | lia].
Qed.

(** Bits at or above [n] do not count below [n]. *)
Lemma count_bits_ext (n : nat) (m m' : Z) :
  (forall j, 0 <= j < Z.of_nat n -> Z.testbit m' j = Z.testbit m j) ->
  count_bits n m' = count_bits n m.
Proof.
  induction n as [|n IH]; intros H; cbn [count_bits]; [reflexivity|].
  rewrite H by lia. rewrite IH; [reflexivity|].
  intros j Hj. apply H. lia.
Qed.

(** Switching one set bit off lowers the count by one. *)
Lemma count_bits_clear_one (n : nat) (m m' i : Z) :
  0 <= i < Z.of_nat n -> Z.testbit m i = true ->
  (forall j, 0 <= j -> Z.testbit m' j = Z.testbit m j && negb (j =? i)) ->
  count_bits n m = S (count_bits n m').
Proof.
  induction n as [|n IH]; intros Hi Hb H; [lia|].
  cbn [count_bits]. rewrite (H (Z.of_nat n)) by lia.
  destruct (Z.eqb_spec (Z.of_nat n) i) as [E|E].
  - rewrite E, Hb, andb_false_r. cbn [Nat.add]. f_equal.
    symmetry. apply count_bits_ext. intros j Hj.
    rewrite H by lia. destruct (Z.eqb_spec j i); [lia|].
    apply andb_true_r.
  - rewrite andb_true_r. rewrite (IH ltac:(lia) Hb H).
    destruct (Z.testbit m (Z.of_nat n)); reflexivity.
Qed.

Lemma popcount_zero_iff (m : Z) : u32 m -> (popcount m = O <-> m = 0).
Proof.
  intros Hm. split.
  - intros H. apply Z.bits_inj'. intros j Hj. rewrite Z.bits_0.
    destruct (Z_lt_le_dec j 32).
    + apply (count_bits_none 32 m H). lia.
    + apply u32_high_bits; assumption.
  - intros ->. apply count_bits_zero.
Qed.

Lemma popcount_clear_highest_bit (m : Z) :
  u32 m -> m <> 0 -> popcount m = S (popcount (util.clear_highest_bit m)).
Proof.
  intros Hm Hnz.
  destruct (get_highest_bit_spec m Hm Hnz) as (Hr & Hs & _).
  apply (count_bits_clear_one 32 m _ (util.get_highest_bit m)).
  - lia.
  - exact Hs.
  - intros j Hj. apply clear_highest_bit_bits; assumption.
Qed.

(** The next index reported is strictly below the one just cleared. *)
Lemma get_highest_bit_descends (m : Z) :
  u32 m -> m <> 0 ->
  util.get_highest_bit (util.clear_highest_bit m) < util.get_highest_bit m.
Proof.
  intros Hm Hnz.
  destruct (get_highest_bit_spec m Hm Hnz) as (Hr & Hs & Ha).
  pose proof (clear_highest_bit_u32 m Hm) as Hc.
  destruct (Z.eq_dec (util.clear_highest_bit m) 0) as [E|E].
  - rewrite E. change (util.get_highest_bit 0) with (-1). lia.
  - destruct (get_highest_bit_spec _ Hc E) as (Hr' & Hs' & _).
    rewrite clear_highest_bit_bits in Hs' by (assumption || lia).
    apply andb_true_iff in Hs'. destruct Hs' as [Hs1 Hs2].
    apply negb_true_iff, Z.eqb_neq in Hs2.
    destruct (Z_lt_le_dec (util.get_highest_bit m)
                (util.get_highest_bit (util.clear_highest_bit m))) as [Hlt|Hle].
    + rewrite (Ha _ Hlt) in Hs1. discriminate.
    + lia.
Qed.

End BitFacts.

(** ** Draining: the shared induction *)

Section Drain.

Lemma drain_remaining (k : nat) : forall m,
  u32 m -> (k <= popcount m)%nat ->
  u32 (snd (drain k m)) /\
  popcount (snd (drain k m)) = (popcount m - k)%nat.
Proof.
  induction k as [|k IH]; intros m Hm Hk; cbn [drain snd].
  - split; [exact Hm | lia].
  - assert (Hnz : m <> 0).
    { intros ->. unfold popcount in Hk. rewrite count_bits_zero in Hk. lia. }
    pose proof (popcount_clear_highest_bit m Hm Hnz) as Hp.
    destruct (IH (util.clear_highest_bit m)) as [Hu Hc].
    + apply clear_highest_bit_u32; exact Hm.
    + lia.
    + split; [exact Hu | lia].
Qed.

Lemma set_bit_below_highest (m i : Z) :
  u32 m -> 0 <= i -> Z.testbit m i = true -> i <= util.get_highest_bit m.
Proof.
  intros Hm Hi Hb.
  assert (Hnz : m <> 0) by (intros ->; rewrite Z.bits_0 in Hb; discriminate).
  destruct (get_highest_bit_spec m Hm Hnz) as (_ & _ & Ha).
  destruct (Z_lt_le_dec (util.get_highest_bit m) i) as [Hlt|Hle]; [|exact Hle].
  rewrite (Ha _ Hlt) in Hb. discriminate.
Qed.

Lemma drain_all (k : nat) : forall m,
  u32 m -> popcount m = k ->
  snd (drain k m) = 0 /\
  StronglySorted Z.gt (fst (drain k m)) /\
  (forall i, In i (fst (drain k m)) <-> 0 <= i < 32 /\ Z.testbit m i = true).
Proof.
  induction k as [|k IH]; intros m Hm Hk; cbn [drain fst snd].
  - apply popcount_zero_iff in Hk; [|exact Hm]. subst m.
    split; [reflexivity|]. split; [constructor|].
    intros i. rewrite Z.bits_0. cbn [In]. intuition discriminate.
  - assert (Hnz : m <> 0).
    { intros ->. unfold popcount in Hk. rewrite count_bits_zero in Hk. lia. }
    pose proof (popcount_clear_highest_bit m Hm Hnz) as Hp.
    pose proof (clear_highest_bit_u32 m Hm) as Hu.
    destruct (get_highest_bit_spec m Hm Hnz) as (Hr & Hs & Ha).
    destruct (IH (util.clear_highest_bit m) Hu ltac:(lia)) as (Hz & Hsort & Hin).
    assert (Hmem : forall i, In i (fst (drain k (util.clear_highest_bit m))) ->
                   0 <= i < 32 /\ Z.testbit m i = true /\
                   i <> util.get_highest_bit m).
    { intros i Hi. apply Hin in Hi. destruct Hi as [Hir Hib].
      rewrite clear_highest_bit_bits in Hib by (assumption || lia).
      apply andb_true_iff in Hib. destruct Hib as [Hb1 Hb2].
      apply negb_true_iff, Z.eqb_neq in Hb2. auto. }
    split; [exact Hz|]. split.
    + constructor; [exact Hsort|].
      apply Forall_forall. intros x Hx.
      destruct (Hmem x Hx) as (Hxr & Hxb & Hxn).
      pose proof (set_bit_below_highest m x Hm ltac:(lia) Hxb). lia.
    + intros i. cbn [In]. split.
      * intros [<-|Hi]; [split; [lia | exact Hs]|].
        destruct (Hmem i Hi) as (? & ? & ?). auto.
      * intros [Hir Hib].
        destruct (Z.eq_dec (util.get_highest_bit m) i) as [E|E]; [left; exact E|].
        right. apply Hin. split; [exact Hir|].
        rewrite clear_highest_bit_bits by (assumption || lia).
        rewrite Hib. destruct (Z.eqb_spec i (util.get_highest_bit m)); [congruence|].
        reflexivity.
Qed.

End Drain.

(** ** C6: draining a mask with [get_highest_bit] / [clear_highest_bit] *)

(** C6. For every 32-bit mask [m], [popcount m] rounds of [get_highest_bit]
    followed by [clear_highest_bit] leave the mask 0, and no smaller number of
    rounds does; the indices reported are strictly descending and are exactly
    the set bits of [m]; [get_highest_bit] returns -1 exactly on the zero
    mask; [clear_highest_bit] clears exactly the bit [get_highest_bit]
    reports and leaves the zero mask alone. *)
Theorem drain_highest_bits (m : Z) :
  u32 m ->
  snd (drain (popcount m) m) = 0 /\
  (forall k, (k < popcount m)%nat -> snd (drain k m) <> 0) /\
  StronglySorted Z.gt (fst (drain (popcount m) m)) /\
  (forall i, In i (fst (drain (popcount m) m)) <->
             0 <= i < 32 /\ Z.testbit m i = true) /\
  (util.get_highest_bit m = -1 <-> m = 0) /\
  (forall j, 0 <= j ->
             Z.testbit (util.clear_highest_bit m) j =
             Z.testbit m j && negb (j =? util.get_highest_bit m)) /\
  util.clear_highest_bit 0 = 0.
Proof.
  intros Hm.
  destruct (drain_all (popcount m) m Hm eq_refl) as (Hz & Hs & Hi).
  split; [exact Hz|]. split.
  { intros k Hk Hzero.
    destruct (drain_remaining k m Hm ltac:(lia)) as [_ Hc].
    rewrite Hzero in Hc. unfold popcount at 1 in Hc.
    rewrite count_bits_zero in Hc. lia. }
  split; [exact Hs|]. split; [exact Hi|].
  split; [apply get_highest_bit_zero_iff; exact Hm|].
  split; [intros j Hj; apply clear_highest_bit_bits; assumption|].
  reflexivity.
Qed.

Lemma drain_highest_bits_witness :
  snd (drain (popcount 26) 26) = 0 /\
  fst (drain (popcount 26) 26) = [4; 3; 1].
Proof.
  split.
  - exact (proj1 (drain_highest_bits 26 ltac:(unfold u32; lia))).
  - reflexivity.
Defined.

(** ** The scheduler and the handlers: frame lemmas *)

Section Frames.

Lemma service_gpio_pulse_uart now now' s :
  _uart (service_gpio_pulse now now' s) = _uart s.
Proof. unfold service_gpio_pulse. repeat case_if; reflexivity. Qed.

Lemma service_gpio_pulse_pins now now' s :
  _erm_pins (service_gpio_pulse now now' s) = _erm_pins s /\
  _solenoid_pins (service_gpio_pulse now now' s) = _solenoid_pins s.
Proof. unfold service_gpio_pulse. repeat case_if; split; reflexivity. Qed.

Lemma service_gpio_pulse_idle now now' s :
  _fingers_to_pulse s = 0 -> service_gpio_pulse now now' s = s.
Proof. intros H. unfold service_gpio_pulse. rewrite H. reflexivity. Qed.

Lemma service_gpio_pulse_hold now now' s :
  wrap32 (now - _pulse_start_ms s) < _pulse_dur_ms s ->
  service_gpio_pulse now now' s = s.
Proof.
  intros H. unfold service_gpio_pulse.
  apply Z.ltb_lt in H. rewrite H. case_if; reflexivity.
Qed.

(** A due step of a live job always leaves a mark in the trace. *)
Lemma service_gpio_pulse_due_emits now now' s :
  _fingers_to_pulse s <> 0 ->
  _pulse_dur_ms s <= wrap32 (now - _pulse_start_ms s) ->
  (length (trace s) < length (trace (service_gpio_pulse now now' s)))%nat.
Proof.
  intros Hlive Hdue. unfold service_gpio_pulse.
  apply Z.eqb_neq in Hlive. rewrite Hlive.
  apply Z.ltb_ge in Hdue. rewrite Hdue.
  repeat case_if; cbn; rewrite ?length_app; cbn; lia.
Qed.

(** The scheduler never looks at the receive FIFO. *)
Lemma service_gpio_pulse_set_uart now now' rx s :
  service_gpio_pulse now now' (set_uart rx s) =
  set_uart rx (service_gpio_pulse now now' s).
Proof. unfold service_gpio_pulse. cbn. repeat case_if; reflexivity. Qed.

Lemma service_gpio_pulse_deliver now now' bytes s :
  service_gpio_pulse now now' (deliver bytes s) =
  deliver bytes (service_gpio_pulse now now' s).
Proof.
  unfold deliver. rewrite service_gpio_pulse_set_uart, service_gpio_pulse_uart.
  reflexivity.
Qed.

End Frames.

(** ** C10: the hold check under clock wrap-around *)

(** C10. The hold check takes the difference of the two clock readings on
    32 bits. For true times [T0 <= T1] less than 2^32 ms apart, of which the
    device only sees the readings modulo 2^32, that difference is the true
    elapsed time, and a live job's scheduler step leaves the state alone
    exactly when the true elapsed time is below the duration. *)
Theorem hold_check_wraparound (T0 T1 now' : Z) (s : state) :
  T0 <= T1 -> T1 - T0 < 2 ^ 32 ->
  _fingers_to_pulse s <> 0 ->
  _pulse_start_ms s = wrap32 T0 ->
  wrap32 (wrap32 T1 - _pulse_start_ms s) = T1 - T0 /\
  (service_gpio_pulse (wrap32 T1) now' s = s <-> T1 - T0 < _pulse_dur_ms s).
Proof.
  intros Hle Hlt Hlive Hstart.
  assert (E : wrap32 (wrap32 T1 - _pulse_start_ms s) = T1 - T0).
  { rewrite Hstart. unfold wrap32.
    rewrite <- Zminus_mod. apply Z.mod_small. lia. }
  split; [exact E|]. split.
  - intros Hsame.
    destruct (Z_lt_le_dec (T1 - T0) (_pulse_dur_ms s)) as [H|H]; [exact H|].
    pose proof (service_gpio_pulse_due_emits (wrap32 T1) now' s Hlive) as Hem.
    rewrite E, Hsame in Hem. specialize (Hem H). lia.
  - intros H. apply service_gpio_pulse_hold. rewrite E. exact H.
Qed.

(** The counter overflows between the start (10 ms before the overflow) and
    the tick (45 ms after it): 55 ms have passed, the 50 ms hold is over. *)
Lemma hold_check_wraparound_witness :
  let s := with_job 2 50 (wrap32 (2 ^ 32 - 10))
             (init (new [] [5; 6; 9; 10; 11] [14; 15; 16; 17; 18; 19])) in
  wrap32 (wrap32 (2 ^ 32 + 45) - _pulse_start_ms s) = 55 /\
  (service_gpio_pulse (wrap32 (2 ^ 32 + 45)) 45 s = s <-> 55 < _pulse_dur_ms s).
Proof.
  intros s.
  apply (hold_check_wraparound (2 ^ 32 - 10) (2 ^ 32 + 45) 45 s).
  - lia.
  - lia.
  - cbn. lia.
  - reflexivity.
Defined.

(** ** Decoded fields and the pulse handler on a complete frame *)

Section PulseHandler.

Lemma byte_swap32_u32 (x : Z) : u32 (util.byte_swap32 x).
Proof.
  apply u32_of_bits.
  - unfold util.byte_swap32.
    repeat (apply Z.lor_nonneg; split);
      rewrite ?Z.shiftl_nonneg; apply Z.land_nonneg; right; lia.
  - intros j Hj. unfold util.byte_swap32.
    change 0xFF with (Z.ones 8).
    rewrite !Z.lor_spec, !Z.shiftl_spec, !Z.land_spec by lia.
    rewrite !(Z.ones_spec_high 8) by lia.
    rewrite !andb_false_r. reflexivity.
Qed.

Lemma decode32_u32 b0 b1 b2 b3 : u32 (decode32 b0 b1 b2 b3).
Proof. apply byte_swap32_u32. Qed.

Lemma byte_val_range (b : byte) : 0 <= byte_val b < 256.
Proof.
  unfold byte_val. pose proof (Byte.to_N_bounded b). lia.
Qed.

Lemma byte_val_high (b : byte) (j : Z) :
  8 <= j -> Z.testbit (byte_val b) j = false.
Proof.
  intros Hj. pose proof (byte_val_range b) as Hr.
  rewrite <- (Z.mod_small (byte_val b) (2 ^ 8))
    by (change (2 ^ 8) with 256; lia).
  apply Z.mod_pow2_bits_high. lia.
Qed.

(** Decoding reads the four bytes in wire order, most significant first. *)
Lemma decode32_wire b0 b1 b2 b3 :
  decode32 b0 b1 b2 b3 =
  Z.lor (Z.lor (Z.shiftl (byte_val b0) 24) (Z.shiftl (byte_val b1) 16))
        (Z.lor (Z.shiftl (byte_val b2) 8) (byte_val b3)).
Proof.
  apply Z.bits_inj'. intros j Hj.
  unfold decode32, util.byte_swap32, le32. change 0xFF with (Z.ones 8).
  destruct (Z_lt_le_dec j 8);
    [|destruct (Z_lt_le_dec j 16);
      [|destruct (Z_lt_le_dec j 24); [|destruct (Z_lt_le_dec j 32)]]].
  all: repeat bit1.
  all: repeat match goal with
       | |- context [Z.testbit (byte_val ?b) ?k] =>
           first [ rewrite (Z.testbit_neg_r (byte_val b) k) by lia
                 | rewrite (byte_val_high b k) by lia ]
       end.
  all: repeat rewrite ?orb_false_r, ?orb_false_l, ?andb_true_r, ?andb_false_r;
    try reflexivity.
  all: f_equal; lia.
Qed.

(** On 32-bit masks [get_highest_bit] is the binary logarithm. *)
Lemma get_highest_bit_log2 (m : Z) :
  u32 m -> m <> 0 -> util.get_highest_bit m = Z.log2 m.
Proof.
  intros Hm Hnz.
  destruct (get_highest_bit_spec m Hm Hnz) as (Hr & Hs & Ha).
  assert (Hpos : 0 < m) by (unfold u32 in Hm; lia).
  pose proof (Z.bit_log2 m Hpos) as Hl.
  pose proof (Z.log2_nonneg m) as Hln.
  destruct (Z_lt_le_dec (util.get_highest_bit m) (Z.log2 m)) as [H1|H1].
  - rewrite (Ha _ H1) in Hl. discriminate.
  - destruct (Z_lt_le_dec (Z.log2 m) (util.get_highest_bit m)) as [H2|H2]; [|lia].
    rewrite Z.bits_above_log2 in Hs by lia. discriminate.
Qed.

(** A nonzero 32-bit mask passes the scheduler's guard iff it is below 2^6. *)
Lemma invalid_pulse_index_bound (m : Z) :
  u32 m -> m <> 0 ->
  (invalid_pulse_index (util.get_highest_bit m) = false <-> m < 2 ^ 6).
Proof.
  intros Hm Hnz. unfold invalid_pulse_index.
  rewrite get_highest_bit_log2 by assumption.
  assert (Hpos : 0 < m) by (unfold u32 in Hm; lia).
  pose proof (Z.log2_nonneg m).
  pose proof (Z.log2_lt_pow2 m 6 Hpos) as Hlog.
  rewrite orb_false_iff, Z.ltb_ge, Z.leb_gt. cbn [ERM_COUNT Z.of_nat] in *.
  change (Z.pos (Pos.of_succ_nat 5)) with 6. lia.
Qed.

Lemma handle_solenoid_pulse_frame now s op m0 m1 m2 m3 d0 d1 d2 d3 rest :
  _uart s = op :: m0 :: m1 :: m2 :: m3 :: d0 :: d1 :: d2 :: d3 :: rest ->
  let m := decode32 m0 m1 m2 m3 in
  let d := decode32 d0 d1 d2 d3 in
  let s1 := set_pulse_dur_ms d (set_fingers_to_pulse m (set_uart rest s)) in
  handle_solenoid_pulse now s =
  if m =? 0 then s1
  else if invalid_pulse_index (util.get_highest_bit m) then
    set_fingers_to_pulse 0
      (Serial_println "!!! Invalid values in pulse"%string s1)
  else
    set_pulse_start_ms now
      (digitalWrite (at_index (_erm_pins s) (Z.to_nat (util.get_highest_bit m)))
         HIGH s1).
Proof.
  intros Hrx m d s1.
  unfold handle_solenoid_pulse, parse_bytes, read, available.
  rewrite Hrx, Nat2Z.id. cbn -[util.byte_swap32 util.get_highest_bit le32].
  reflexivity.
Qed.

Lemma handle_solenoid_pulse_short now s :
  (length (_uart s) < sizeof SolenoidPulse)%nat ->
  handle_solenoid_pulse now s = s.
Proof.
  intros H. unfold handle_solenoid_pulse, available. rewrite Nat2Z.id.
  apply Nat.ltb_lt in H. rewrite H. reflexivity.
Qed.

End PulseHandler.

(** ** C3, C4, C5: triggering a pulse *)

(** C3. A pulse command whose decoded mask is nonzero and has its highest set
    bit outside the range the handler accepts (the mask is 2^6 or more) is
    aborted: the remaining mask is 0 afterwards, the only effect on the
    outside world is the diagnostic line, no pin is written, the start time
    is untouched, and later scheduler steps do nothing. *)
Theorem pulse_invalid_index_aborts
  now s op m0 m1 m2 m3 d0 d1 d2 d3 rest :
  _uart s = op :: m0 :: m1 :: m2 :: m3 :: d0 :: d1 :: d2 :: d3 :: rest ->
  let m := decode32 m0 m1 m2 m3 in
  m <> 0 ->
  ~ (0 <= util.get_highest_bit m < Z.of_nat ERM_COUNT) ->
  let s' := handle_solenoid_pulse now s in
  2 ^ 6 <= m /\
  _fingers_to_pulse s' = 0 /\
  trace s' = trace s ++ [SerialPrintln "!!! Invalid values in pulse"%string] /\
  _pulse_start_ms s' = _pulse_start_ms s /\
  _uart s' = rest /\
  forall t t', service_gpio_pulse t t' s' = s'.
Proof.
  intros Hrx m Hnz Hout s'. subst s'.
  rewrite (handle_solenoid_pulse_frame now s _ _ _ _ _ _ _ _ _ _ Hrx).
  fold m. cbv zeta.
  apply Z.eqb_neq in Hnz. rewrite Hnz. apply Z.eqb_neq in Hnz.
  assert (Hinv : invalid_pulse_index (util.get_highest_bit m) = true).
  { unfold invalid_pulse_index.
    destruct (Z.ltb_spec (util.get_highest_bit m) 0); [reflexivity|].
    destruct (Z.leb_spec (Z.of_nat ERM_COUNT) (util.get_highest_bit m));
      [reflexivity | lia]. }
  rewrite Hinv. cbn.
  split.
  { pose proof (invalid_pulse_index_bound m (decode32_u32 _ _ _ _) Hnz) as Hb.
    destruct (Z_lt_le_dec m (2 ^ 6)) as [Hlt|Hge]; [|exact Hge].
    apply Hb in Hlt. congruence. }
  repeat split; try reflexivity.
Qed.

Lemma pulse_invalid_index_aborts_witness :
  let s := new [x02; x00; x00; x00; x40; x00; x00; x00; x32]
             [5; 6; 9; 10; 11] [14; 15; 16; 17; 18; 19] in
  _fingers_to_pulse (handle_solenoid_pulse 7 s) = 0 /\
  trace (handle_solenoid_pulse 7 s) =
    [SerialPrintln "!!! Invalid values in pulse"%string].
Proof.
  intros s.
  pose proof (pulse_invalid_index_aborts 7 s x02 x00 x00 x00 x40
                x00 x00 x00 x32 [] eq_refl
                ltac:(vm_compute; discriminate)
                ltac:(vm_compute; intros [_ H]; discriminate H)) as H.
  cbv zeta in H. destruct H as (_ & Hf & Ht & _).
  split; [exact Hf | exact Ht].
Defined.

(** C4, as the code has it. A pulse command whose decoded mask is 0 causes
    no actuator transition and leaves the scheduler idle with its start time
    untouched; it does store the frame's duration in the duration field and
    0 in the remaining mask, whatever job was there before. *)
Theorem pulse_zero_mask_idles
  now s op m0 m1 m2 m3 d0 d1 d2 d3 rest :
  _uart s = op :: m0 :: m1 :: m2 :: m3 :: d0 :: d1 :: d2 :: d3 :: rest ->
  decode32 m0 m1 m2 m3 = 0 ->
  let s' := handle_solenoid_pulse now s in
  trace s' = trace s /\
  _fingers_to_pulse s' = 0 /\
  _pulse_start_ms s' = _pulse_start_ms s /\
  _pulse_dur_ms s' = decode32 d0 d1 d2 d3 /\
  _uart s' = rest /\
  forall t t', service_gpio_pulse t t' s' = s'.
Proof.
  intros Hrx Hz s'. subst s'.
  rewrite (handle_solenoid_pulse_frame now s _ _ _ _ _ _ _ _ _ _ Hrx).
  cbv zeta. rewrite Hz. cbn. repeat split; reflexivity.
Qed.

Lemma pulse_zero_mask_idles_witness :
  let s := with_job 8 50 3
             (new [x02; x00; x00; x00; x00; x00; x00; x00; x05]
                [5; 6; 9; 10; 11] [14; 15; 16; 17; 18; 19]) in
  trace (handle_solenoid_pulse 7 s) = trace s /\
  _fingers_to_pulse (handle_solenoid_pulse 7 s) = 0.
Proof.
  intros s.
  pose proof (pulse_zero_mask_idles 7 s x02 x00 x00 x00 x00
                x00 x00 x00 x05 [] eq_refl eq_refl) as H.
  cbv zeta in H. destruct H as (Ht & Hf & _).
  split; [exact Ht | exact Hf].
Defined.

(** C4 as stated fails: on an idle scheduler a zero-mask pulse command with
    duration 5 changes the duration field from 0 to 5. *)
Lemma pulse_zero_mask_modifies_duration :
  let s := new [x02; x00; x00; x00; x00; x00; x00; x00; x05]
             [5; 6; 9; 10; 11] [14; 15; 16; 17; 18; 19] in
  decode32 x00 x00 x00 x00 = 0 /\
  _fingers_to_pulse s = 0 /\
  _pulse_dur_ms s = 0 /\
  _pulse_dur_ms (handle_solenoid_pulse 7 s) = 5 /\
  handle_solenoid_pulse 7 s <> set_uart [] s.
Proof.
  cbv zeta. repeat split; try reflexivity.
  intros H. apply (f_equal _pulse_dur_ms) in H. vm_compute in H. discriminate H.
Qed.

(** C5. A pulse command with a nonzero mask whose highest set bit is in the
    accepted range replaces whatever job was in flight: mask, duration and
    start time are those of the new command, the one pin driven high is the
    one at the highest set bit of the new mask, and the state that results,
    hence everything any later sequence of ticks does, is the same whatever
    the previous job was. *)
Theorem pulse_retrigger_replaces
  now s op m0 m1 m2 m3 d0 d1 d2 d3 rest :
  _uart s = op :: m0 :: m1 :: m2 :: m3 :: d0 :: d1 :: d2 :: d3 :: rest ->
  let m := decode32 m0 m1 m2 m3 in
  m <> 0 ->
  util.get_highest_bit m < Z.of_nat ERM_COUNT ->
  let s' := handle_solenoid_pulse now s in
  _fingers_to_pulse s' = m /\
  _pulse_dur_ms s' = decode32 d0 d1 d2 d3 /\
  _pulse_start_ms s' = now /\
  _uart s' = rest /\
  trace s' =
    trace s ++
    [DigitalWrite (at_index (_erm_pins s) (Z.to_nat (util.get_highest_bit m)))
       HIGH] /\
  forall mask0 dur0 start0,
    handle_solenoid_pulse now (with_job mask0 dur0 start0 s) = s' /\
    forall ds, run ds (handle_solenoid_pulse now (with_job mask0 dur0 start0 s))
               = run ds s'.
Proof.
  intros Hrx m Hnz Hin s'.
  assert (Hinv : invalid_pulse_index (util.get_highest_bit m) = false).
  { destruct (get_highest_bit_spec m (decode32_u32 _ _ _ _) Hnz) as (Hr & _).
    unfold invalid_pulse_index. apply orb_false_iff.
    split; [apply Z.ltb_ge | apply Z.leb_gt]; lia. }
  assert (Hs' : forall s0,
             _uart s0 = _uart s -> _erm_pins s0 = _erm_pins s ->
             _solenoid_pins s0 = _solenoid_pins s -> trace s0 = trace s ->
             handle_solenoid_pulse now s0 =
             set_pulse_start_ms now
               (digitalWrite
                  (at_index (_erm_pins s) (Z.to_nat (util.get_highest_bit m)))
                  HIGH
                  (set_pulse_dur_ms (decode32 d0 d1 d2 d3)
                     (set_fingers_to_pulse m (set_uart rest s))))).
  { intros s0 Hu He Hso Ht. rewrite Hrx in Hu.
    rewrite (handle_solenoid_pulse_frame now s0 _ _ _ _ _ _ _ _ _ _ Hu).
    fold m. cbv zeta. rewrite Hinv.
    apply Z.eqb_neq in Hnz. rewrite Hnz.
    unfold set_pulse_start_ms, digitalWrite, emit, set_pulse_dur_ms,
      set_fingers_to_pulse, set_uart. cbn. rewrite He, Hso, Ht. reflexivity. }
  subst s'. rewrite (Hs' s) by reflexivity. cbn.
  repeat split; try reflexivity.
  - rewrite (Hs' (with_job mask0 dur0 start0 s)) by reflexivity. reflexivity.
  - intros ds.
    rewrite (Hs' (with_job mask0 dur0 start0 s)) by reflexivity. reflexivity.
Qed.

(** Actuator 3 is being held when a command for mask {0,2} arrives. *)
Lemma pulse_retrigger_replaces_witness :
  let s := with_job 10 50 3
             (new [x02; x00; x00; x00; x05; x00; x00; x00; x14]
                [5; 6; 9; 10; 11] [14; 15; 16; 17; 18; 19]) in
  _fingers_to_pulse (handle_solenoid_pulse 7 s) = 5 /\
  trace (handle_solenoid_pulse 7 s) = [DigitalWrite 16 HIGH].
Proof.
  intros s.
  pose proof (pulse_retrigger_replaces 7 s x02 x00 x00 x00 x05
                x00 x00 x00 x14 [] eq_refl
                ltac:(vm_compute; discriminate)
                ltac:(vm_compute; reflexivity)) as H.
  cbv zeta in H. destruct H as (Hf & _ & _ & _ & Ht & _).
  split; [exact Hf | exact Ht].
Defined.

(** ** C9: the pulse path drives the ERM pin table *)

Lemma invalid_pulse_index_false (i : Z) :
  invalid_pulse_index i = false -> (Z.to_nat i < ERM_COUNT)%nat.
Proof.
  unfold invalid_pulse_index. rewrite orb_false_iff, Z.ltb_ge, Z.leb_gt.
  unfold ERM_COUNT. lia.
Qed.

Lemma erm_event_write (s : state) (i : Z) (high : bool) :
  invalid_pulse_index i = false ->
  erm_event s (DigitalWrite (at_index (_erm_pins s) (Z.to_nat i)) high).
Proof.
  intros H. left. exists (Z.to_nat i), high.
  split; [apply invalid_pulse_index_false; exact H | reflexivity].
Qed.

Lemma erm_event_println (s : state) msg : erm_event s (SerialPrintln msg).
Proof. right. exists msg. reflexivity. Qed.

Lemma service_gpio_pulse_events now now' s :
  exists evs, trace (service_gpio_pulse now now' s) = trace s ++ evs /\
              Forall (erm_event s) evs.
Proof.
  unfold service_gpio_pulse.
  destruct (_fingers_to_pulse s =? 0);
    [exists []; split; [symmetry; apply app_nil_r | constructor]|].
  destruct (wrap32 _ <? _);
    [exists []; split; [symmetry; apply app_nil_r | constructor]|].
  destruct (invalid_pulse_index (util.get_highest_bit (_fingers_to_pulse s)))
    eqn:Hi1; cbn.
  { eexists; split; [reflexivity|].
    apply Forall_cons; [apply erm_event_println | apply Forall_nil]. }
  destruct (util.clear_highest_bit (_fingers_to_pulse s) =? 0); cbn.
  { eexists; split; [reflexivity|].
    apply Forall_cons; [apply erm_event_write; exact Hi1 | apply Forall_nil]. }
  destruct (invalid_pulse_index
              (util.get_highest_bit
                 (util.clear_highest_bit (_fingers_to_pulse s)))) eqn:Hi2;
    cbn; rewrite <- app_assoc; cbn.
  - eexists; split; [reflexivity|].
    apply Forall_cons; [apply erm_event_write; exact Hi1|].
    apply Forall_cons; [apply erm_event_println | apply Forall_nil].
  - eexists; split; [reflexivity|].
    apply Forall_cons; [apply erm_event_write; exact Hi1|].
    apply Forall_cons; [apply erm_event_write; exact Hi2 | apply Forall_nil].
Qed.

Lemma handle_solenoid_pulse_events now s :
  exists evs, trace (handle_solenoid_pulse now s) = trace s ++ evs /\
              Forall (erm_event s) evs.
Proof.
  unfold handle_solenoid_pulse.
  destruct (_ <? _)%nat eqn:Hlen;
    [exists []; split; [symmetry; apply app_nil_r | constructor]|].
  unfold parse_bytes. rewrite Hlen. cbn.
  destruct (util.byte_swap32 _ =? 0); cbn;
    [exists []; split; [symmetry; apply app_nil_r | constructor]|].
  destruct (invalid_pulse_index _) eqn:Hi; cbn.
  - eexists; split; [reflexivity|].
    apply Forall_cons; [apply erm_event_println | apply Forall_nil].
  - eexists; split; [reflexivity|].
    apply Forall_cons; [apply erm_event_write; exact Hi | apply Forall_nil].
Qed.

Lemma service_gpio_pulse_set_solenoid_pins now now' pins s :
  service_gpio_pulse now now' (set_solenoid_pins pins s) =
  set_solenoid_pins pins (service_gpio_pulse now now' s).
Proof. unfold service_gpio_pulse. cbn. repeat case_if; reflexivity. Qed.

Lemma handle_solenoid_pulse_set_solenoid_pins now pins s :
  handle_solenoid_pulse now (set_solenoid_pins pins s) =
  set_solenoid_pins pins (handle_solenoid_pulse now s).
Proof.
  unfold handle_solenoid_pulse, parse_bytes, available. cbn.
  repeat case_if; reflexivity.
Qed.

(** ** C7: the solenoid write handler *)

Section SolenoidWrite.

Lemma is_set_testbit (m : Z) (i : nat) :
  (i < 32)%nat -> util.is_set m (Z.of_nat i) = Z.testbit m (Z.of_nat i).
Proof.
  intros Hi. unfold util.is_set.
  destruct (Z.ltb_spec 31 (Z.of_nat i)); [lia|].
  rewrite land_bit_test by lia. apply negb_involutive.
Qed.

(** The write loop over any list of indices. *)
Lemma write_loop_spec (m : Z) (high : bool) (l : list nat) : forall s,
  let s' := fold_left (fun s pin_idx =>
                         if util.is_set m (Z.of_nat pin_idx)
                         then digitalWrite (at_index (_solenoid_pins s) pin_idx)
                                high s
                         else s) l s in
  s' = {| _uart := _uart s;
          _fingers_to_pulse := _fingers_to_pulse s;
          _pulse_dur_ms := _pulse_dur_ms s;
          _pulse_start_ms := _pulse_start_ms s;
          _solenoid_pins := _solenoid_pins s;
          _erm_pins := _erm_pins s;
          trace := trace s ++
                   map (fun i => DigitalWrite (at_index (_solenoid_pins s) i) high)
                       (filter (fun i => util.is_set m (Z.of_nat i)) l) |}.
Proof.
  induction l as [|i l IH]; intros s; cbn [fold_left filter map].
  - rewrite app_nil_r. destruct s; reflexivity.
  - cbv zeta in IH. rewrite IH.
    destruct (util.is_set m (Z.of_nat i)); cbn; [|reflexivity].
    rewrite <- app_assoc. reflexivity.
Qed.

Lemma handle_solenoid_write_frame s op m0 m1 m2 m3 o rest :
  _uart s = op :: m0 :: m1 :: m2 :: m3 :: o :: rest ->
  handle_solenoid_write s =
  fold_left (fun s pin_idx =>
               if util.is_set (decode32 m0 m1 m2 m3) (Z.of_nat pin_idx)
               then digitalWrite (at_index (_solenoid_pins s) pin_idx)
                      (Byte.eqb o OUT_HIGH) s
               else s)
            (seq 0 SOLENOID_COUNT) (set_uart rest s).
Proof.
  intros Hrx. unfold handle_solenoid_write, parse_bytes, read, available.
  rewrite Hrx, Nat2Z.id. reflexivity.
Qed.

Lemma handle_solenoid_write_short s :
  (length (_uart s) < sizeof SolenoidWrite)%nat -> handle_solenoid_write s = s.
Proof.
  intros H. unfold handle_solenoid_write, available. rewrite Nat2Z.id.
  apply Nat.ltb_lt in H. rewrite H. reflexivity.
Qed.

Lemma pin_output_app (tr evs : list event) (p : Z) :
  pin_output (tr ++ evs) p = fold_left (drive p) evs (pin_output tr p).
Proof. unfold pin_output. apply fold_left_app. Qed.

(** Writing one level to a list of pins. *)
Lemma drive_writes (pins : list Z) (high : bool) (p : Z) : forall acc,
  fold_left (drive p) (map (fun q => DigitalWrite q high) pins) acc =
  if existsb (fun q => q =? p) pins then Some (Level high) else acc.
Proof.
  induction pins as [|q pins IH]; intros acc; cbn [map fold_left existsb];
    [reflexivity|].
  rewrite IH. cbn [drive].
  destruct (q =? p); cbn [orb]; [|reflexivity].
  destruct (existsb _ pins); reflexivity.
Qed.

End SolenoidWrite.

(** C7. A solenoid WRITE command with decoded mask [m] and output byte [o]
    writes the level [o == OUT_HIGH] to the solenoid pins of exactly the
    indices 0..4 whose bit is set in [m], in ascending order, and does
    nothing else: set bits at index 5 and above cause no write, every pin
    addressed ends at that level, every other pin keeps its output, and the
    scheduler fields are untouched. *)
Theorem solenoid_write_drives_set_bits s op m0 m1 m2 m3 o rest :
  _uart s = op :: m0 :: m1 :: m2 :: m3 :: o :: rest ->
  let m := decode32 m0 m1 m2 m3 in
  let high := Byte.eqb o OUT_HIGH in
  let s' := handle_solenoid_write s in
  s' = {| _uart := rest;
          _fingers_to_pulse := _fingers_to_pulse s;
          _pulse_dur_ms := _pulse_dur_ms s;
          _pulse_start_ms := _pulse_start_ms s;
          _solenoid_pins := _solenoid_pins s;
          _erm_pins := _erm_pins s;
          trace := trace s ++
                   map (fun i => DigitalWrite (at_index (_solenoid_pins s) i) high)
                       (filter (fun i => Z.testbit m (Z.of_nat i))
                               (seq 0 SOLENOID_COUNT)) |} /\
  (forall i, (i < SOLENOID_COUNT)%nat -> Z.testbit m (Z.of_nat i) = true ->
             pin_output (trace s') (at_index (_solenoid_pins s) i)
             = Some (Level high)) /\
  (forall p, (forall i, (i < SOLENOID_COUNT)%nat ->
                        Z.testbit m (Z.of_nat i) = true ->
                        at_index (_solenoid_pins s) i <> p) ->
             pin_output (trace s') p = pin_output (trace s) p).
Proof.
  intros Hrx m high s'.
  assert (Hs' : s' = {| _uart := rest;
          _fingers_to_pulse := _fingers_to_pulse s;
          _pulse_dur_ms := _pulse_dur_ms s;
          _pulse_start_ms := _pulse_start_ms s;
          _solenoid_pins := _solenoid_pins s;
          _erm_pins := _erm_pins s;
          trace := trace s ++
                   map (fun i => DigitalWrite (at_index (_solenoid_pins s) i) high)
                       (filter (fun i => Z.testbit m (Z.of_nat i))
                               (seq 0 SOLENOID_COUNT)) |}).
  { subst s'. rewrite (handle_solenoid_write_frame s _ _ _ _ _ _ _ Hrx).
    fold m high. rewrite write_loop_spec. cbn [set_uart _uart _fingers_to_pulse
      _pulse_dur_ms _pulse_start_ms _solenoid_pins _erm_pins trace].
    f_equal. f_equal. f_equal.
    apply filter_ext_in. intros i Hi. apply in_seq in Hi.
    apply is_set_testbit. unfold SOLENOID_COUNT in Hi. lia. }
  split; [exact Hs'|].
  assert (Hout : forall p,
             pin_output (trace s') p =
             if existsb (fun q => q =? p)
                  (map (fun i => at_index (_solenoid_pins s) i)
                     (filter (fun i => Z.testbit m (Z.of_nat i))
                        (seq 0 SOLENOID_COUNT)))
             then Some (Level high) else pin_output (trace s) p).
  { intros p. rewrite Hs'. cbn [trace]. rewrite pin_output_app.
    rewrite <- drive_writes. rewrite map_map. reflexivity. }
  split.
  - intros i Hi Hb. rewrite Hout.
    replace (existsb _ _) with true; [reflexivity|].
    symmetry. apply existsb_exists.
    exists (at_index (_solenoid_pins s) i). split; [|apply Z.eqb_refl].
    apply in_map_iff. exists i. split; [reflexivity|].
    apply filter_In. split; [apply in_seq; lia | exact Hb].
  - intros p Hp. rewrite Hout.
    replace (existsb _ _) with false; [reflexivity|].
    symmetry. apply not_true_is_false. intros Hex.
    apply existsb_exists in Hex. destruct Hex as (q & Hq & Heq).
    apply in_map_iff in Hq. destruct Hq as (i & <- & Hi).
    apply filter_In in Hi. destruct Hi as [Hi Hb]. apply in_seq in Hi.
    apply Z.eqb_eq in Heq. apply (Hp i); [lia | exact Hb | exact Heq].
Qed.

(** Mask 0b00000101, level HIGH: solenoids 0 and 2 are driven high. *)
Lemma solenoid_write_drives_set_bits_witness :
  let s := init (new [x01; x00; x00; x00; x05; x01]
                   [5; 6; 9; 10; 11] [14; 15; 16; 17; 18; 19]) in
  trace (handle_solenoid_write s) =
    trace s ++ [DigitalWrite 5 HIGH; DigitalWrite 9 HIGH].
Proof.
  intros s.
  pose proof (solenoid_write_drives_set_bits s x01 x00 x00 x00 x05 x01 []
                eq_refl) as H.
  cbv zeta in H. destruct H as (H & _).
  rewrite H. reflexivity.
Defined.

(** ** The invariant of reachable states *)

Section Invariant.

Lemma job_valid_device s s' : device s' = device s -> job_valid s -> job_valid s'.
Proof.
  unfold device, job_valid. intros H. injection H as -> _ _ -> ->. auto.
Qed.

(** A loop whose body only adds to the trace keeps the device. *)
Lemma loop_device (f : state -> nat -> state) (l : list nat) :
  (forall s i, device (f s i) = device s /\ _uart (f s i) = _uart s) ->
  forall s, device (fold_left f l s) = device s /\
            _uart (fold_left f l s) = _uart s.
Proof.
  intros Hf. induction l as [|i l IH]; intros s; cbn [fold_left]; [auto|].
  destruct (IH (f s i)) as [-> ->]. apply Hf.
Qed.

Lemma init_device s : device (init s) = device s /\ _uart (init s) = _uart s.
Proof.
  unfold init.
  match goal with
  | |- context [fold_left ?f ?l (fold_left ?g ?k s)] =>
      destruct (loop_device f l (fun s i => conj eq_refl eq_refl)
                  (fold_left g k s)) as [-> ->];
      apply (loop_device g k (fun s i => conj eq_refl eq_refl))
  end.
Qed.

Lemma handle_solenoid_write_device s :
  device (handle_solenoid_write s) = device s.
Proof.
  unfold handle_solenoid_write.
  destruct (_ <? _)%nat eqn:Hlen; [reflexivity|].
  unfold parse_bytes. rewrite Hlen. cbn [read].
  match goal with
  | |- device (fold_left ?f ?l ?s0) = _ =>
      destruct (loop_device f l) with (s := s0) as [-> _]
  end.
  - intros u i. destruct (util.is_set _ _); split; reflexivity.
  - reflexivity.
Qed.

Lemma handle_erm_set_device s : device (handle_erm_set s) = device s.
Proof.
  unfold handle_erm_set.
  destruct (_ <? _)%nat eqn:Hlen; [reflexivity|].
  unfold parse_bytes. rewrite Hlen. cbn [read].
  match goal with
  | |- device (fold_left ?f ?l ?s0) = _ =>
      destruct (loop_device f l) with (s := s0) as [-> _]
  end.
  - intros u i. destruct (util.is_set _ _); split; reflexivity.
  - reflexivity.
Qed.

Lemma job_valid_clear s :
  job_valid s -> _fingers_to_pulse s <> 0 ->
  u32 (util.clear_highest_bit (_fingers_to_pulse s)) /\
  util.get_highest_bit (util.clear_highest_bit (_fingers_to_pulse s))
  < Z.of_nat ERM_COUNT.
Proof.
  intros (Hu & Hb & _) Hnz. split.
  - apply clear_highest_bit_u32; exact Hu.
  - pose proof (get_highest_bit_descends _ Hu Hnz). lia.
Qed.

Lemma job_valid_of s s' :
  job_valid s ->
  _erm_pins s' = _erm_pins s -> _solenoid_pins s' = _solenoid_pins s ->
  u32 (_fingers_to_pulse s') ->
  util.get_highest_bit (_fingers_to_pulse s') < Z.of_nat ERM_COUNT ->
  job_valid s'.
Proof.
  intros (_ & _ & He & Hs) He' Hs' Hu Hb. unfold job_valid.
  rewrite He', Hs'. auto.
Qed.

Lemma job_valid_idle s s' :
  job_valid s ->
  _erm_pins s' = _erm_pins s -> _solenoid_pins s' = _solenoid_pins s ->
  _fingers_to_pulse s' = 0 ->
  job_valid s'.
Proof.
  intros Hv He Hs Hz. apply (job_valid_of s); try assumption; rewrite Hz.
  - unfold u32; lia.
  - change (util.get_highest_bit 0) with (-1). lia.
Qed.

Lemma service_gpio_pulse_valid now now' s :
  job_valid s -> job_valid (service_gpio_pulse now now' s).
Proof.
  intros Hv. unfold service_gpio_pulse.
  destruct (Z.eqb_spec (_fingers_to_pulse s) 0) as [|Hnz]; [exact Hv|].
  destruct (job_valid_clear s Hv Hnz) as [Hcu Hcb].
  destruct (wrap32 _ <? _); [exact Hv|].
  destruct (invalid_pulse_index _);
    [apply (job_valid_idle s); [exact Hv | reflexivity..]|].
  cbn.
  destruct (util.clear_highest_bit (_fingers_to_pulse s) =? 0) eqn:Hz.
  { apply Z.eqb_eq in Hz.
    apply (job_valid_idle s); [exact Hv | reflexivity | reflexivity | exact Hz]. }
  destruct (invalid_pulse_index _);
    [apply (job_valid_idle s); [exact Hv | reflexivity..]|].
  apply (job_valid_of s); [exact Hv | reflexivity | reflexivity | | ];
    cbn; assumption.
Qed.

Lemma handle_solenoid_pulse_valid now s :
  job_valid s -> job_valid (handle_solenoid_pulse now s).
Proof.
  intros Hv. unfold handle_solenoid_pulse.
  destruct (_ <? _)%nat eqn:Hlen; [exact Hv|].
  unfold parse_bytes. rewrite Hlen. cbn.
  match goal with
  | |- context [?x =? 0] => destruct (Z.eqb_spec x 0) as [Hz|Hnz]; cbn
  end.
  { apply (job_valid_idle s); [exact Hv | reflexivity | reflexivity | exact Hz]. }
  destruct (invalid_pulse_index _) eqn:Hi;
    [apply (job_valid_idle s); [exact Hv | reflexivity..]|].
  apply (job_valid_of s); [exact Hv | reflexivity | reflexivity | | ]; cbn.
  - apply byte_swap32_u32.
  - apply invalid_pulse_index_false in Hi.
    match type of Hi with
    | (Z.to_nat (util.get_highest_bit ?m) < _)%nat =>
        pose proof (get_highest_bit_range m)
    end.
    unfold ERM_COUNT in *. lia.
Qed.

Lemma service_valid c s : job_valid s -> job_valid (service c s).
Proof.
  intros Hv. unfold service.
  pose proof (service_gpio_pulse_valid (at_hold_check c) (at_next_pulse c) s Hv)
    as Hv1.
  repeat case_if; try exact Hv1.
  - eapply job_valid_device; [apply handle_solenoid_write_device | exact Hv1].
  - apply handle_solenoid_pulse_valid; exact Hv1.
  - eapply job_valid_device; [apply handle_erm_set_device | exact Hv1].
Qed.

Lemma reachable_job_valid s : reachable s -> job_valid s.
Proof.
  induction 1 as [rx sol erm Hs He | s _ IH | bytes s _ IH | c s _ IH].
  - unfold job_valid, new; cbn [_fingers_to_pulse _erm_pins _solenoid_pins].
    change (util.get_highest_bit 0) with (-1).
    rewrite !length_firstn. unfold u32, ERM_COUNT, SOLENOID_COUNT in *.
    repeat split; lia.
  - eapply job_valid_device; [apply init_device | exact IH].
  - exact IH.
  - apply service_valid; exact IH.
Qed.

End Invariant.

(** ** C2: the scheduler step *)

Section SchedulerStep.

Lemma valid_index (m : Z) :
  u32 m -> m <> 0 -> util.get_highest_bit m < Z.of_nat ERM_COUNT ->
  invalid_pulse_index (util.get_highest_bit m) = false.
Proof.
  intros Hu Hnz Hb. destruct (get_highest_bit_spec m Hu Hnz) as (Hr & _).
  unfold invalid_pulse_index. apply orb_false_iff.
  split; [apply Z.ltb_ge | apply Z.leb_gt]; lia.
Qed.

Lemma service_gpio_pulse_due now now' s :
  u32 (_fingers_to_pulse s) -> _fingers_to_pulse s <> 0 ->
  util.get_highest_bit (_fingers_to_pulse s) < Z.of_nat ERM_COUNT ->
  _pulse_dur_ms s <= wrap32 (now - _pulse_start_ms s) ->
  service_gpio_pulse now now' s = pulse_step_result now' s.
Proof.
  intros Hu Hnz Hb Hdue.
  unfold service_gpio_pulse, pulse_step_result.
  rewrite (proj2 (Z.eqb_neq _ _) Hnz), (proj2 (Z.ltb_ge _ _) Hdue).
  rewrite (valid_index _ Hu Hnz Hb). cbn.
  destruct (Z.eqb_spec (util.clear_highest_bit (_fingers_to_pulse s)) 0)
    as [Hz|Hnz'].
  { unfold_setters. rewrite Hz. reflexivity. }
  rewrite valid_index.
  - unfold_setters. rewrite <- app_assoc. reflexivity.
  - apply clear_highest_bit_u32; exact Hu.
  - exact Hnz'.
  - pose proof (get_highest_bit_descends _ Hu Hnz). lia.
Qed.

Lemma job_state_step s0 rx m d st evs now now' :
  u32 m -> m <> 0 -> util.get_highest_bit m < Z.of_nat ERM_COUNT ->
  d <= wrap32 (now - st) ->
  service_gpio_pulse now now' (job_state s0 rx m d st evs) =
  let low := DigitalWrite
               (at_index (_erm_pins s0) (Z.to_nat (util.get_highest_bit m)))
               LOW in
  let m' := util.clear_highest_bit m in
  if m' =? 0 then job_state s0 rx 0 d 0 (evs ++ [low])
  else job_state s0 rx m' d now'
         (evs ++ [low;
                  DigitalWrite
                    (at_index (_erm_pins s0)
                       (Z.to_nat (util.get_highest_bit m'))) HIGH]).
Proof.
  intros Hu Hnz Hb Hdue.
  rewrite service_gpio_pulse_due by assumption.
  unfold pulse_step_result, job_state. cbn.
  destruct (util.clear_highest_bit m =? 0); rewrite <- app_assoc; reflexivity.
Qed.

Lemma job_state_hold s0 rx m d st evs now now' :
  wrap32 (now - st) < d ->
  service_gpio_pulse now now' (job_state s0 rx m d st evs) =
  job_state s0 rx m d st evs.
Proof. intros H. apply service_gpio_pulse_hold. exact H. Qed.

End SchedulerStep.

(** C2. (i) In every reachable state with a live job (mask [m] nonzero),
    [get_highest_bit m] is the index [i] of the highest set bit and is a
    valid ERM index, [clear_highest_bit] clears exactly that bit, a scheduler
    step whose 32-bit elapsed time is below the duration changes nothing, and
    any other step deactivates actuator [i], clears bit [i] and, if bits
    remain, activates the actuator at the new highest set bit and takes the
    current reading as start time (otherwise resets the start time).
    (ii) The pulse command for mask {1,3,4} and 50 ms activates actuator 4;
    each hold lasts until the first step at least 50 ms after it began, and
    the steps that end the holds deactivate 4 and activate 3, deactivate 3
    and activate 1, deactivate 1 and leave the scheduler idle for good; the
    six pin writes alternate high/low on one pin at a time, and at the end
    every pin of the job is low and no other pin has changed. *)
Theorem pulse_schedule :
  (forall s now now',
      reachable s -> _fingers_to_pulse s <> 0 ->
      let m := _fingers_to_pulse s in
      let i := util.get_highest_bit m in
      (0 <= i < Z.of_nat ERM_COUNT /\ Z.testbit m i = true /\
       forall j, i < j -> Z.testbit m j = false) /\
      (forall j, 0 <= j ->
                 Z.testbit (util.clear_highest_bit m) j =
                 Z.testbit m j && negb (j =? i)) /\
      (wrap32 (now - _pulse_start_ms s) < _pulse_dur_ms s ->
       service_gpio_pulse now now' s = s) /\
      (_pulse_dur_ms s <= wrap32 (now - _pulse_start_ms s) ->
       service_gpio_pulse now now' s = pulse_step_result now' s)) /\
  (forall s rest t0,
      _uart s = pulse_134_50 ++ rest ->
      let e := at_index (_erm_pins s) in
      let J1 t := job_state s rest 26 50 t [DigitalWrite (e 4%nat) HIGH] in
      let J2 t := job_state s rest 10 50 t
                    [DigitalWrite (e 4%nat) HIGH; DigitalWrite (e 4%nat) LOW;
                     DigitalWrite (e 3%nat) HIGH] in
      let J3 t := job_state s rest 2 50 t
                    [DigitalWrite (e 4%nat) HIGH; DigitalWrite (e 4%nat) LOW;
                     DigitalWrite (e 3%nat) HIGH; DigitalWrite (e 3%nat) LOW;
                     DigitalWrite (e 1%nat) HIGH] in
      let J4 := job_state s rest 0 50 0
                  [DigitalWrite (e 4%nat) HIGH; DigitalWrite (e 4%nat) LOW;
                   DigitalWrite (e 3%nat) HIGH; DigitalWrite (e 3%nat) LOW;
                   DigitalWrite (e 1%nat) HIGH; DigitalWrite (e 1%nat) LOW] in
      handle_solenoid_pulse t0 s = J1 t0 /\
      (forall t a a', wrap32 (a - t) < 50 ->
                      service_gpio_pulse a a' (J1 t) = J1 t /\
                      service_gpio_pulse a a' (J2 t) = J2 t /\
                      service_gpio_pulse a a' (J3 t) = J3 t) /\
      (forall t b b', 50 <= wrap32 (b - t) ->
                      service_gpio_pulse b b' (J1 t) = J2 b' /\
                      service_gpio_pulse b b' (J2 t) = J3 b' /\
                      service_gpio_pulse b b' (J3 t) = J4) /\
      (forall t t', service_gpio_pulse t t' J4 = J4) /\
      (forall p, In p [e 4%nat; e 3%nat; e 1%nat] \/
                 pin_output (trace s) p = Some (Level LOW) ->
                 pin_output (trace J4) p = Some (Level LOW))).
Proof.
  split.
  - intros s now now' Hr Hlive m i.
    destruct (reachable_job_valid s Hr) as (Hu & Hb & _).
    destruct (get_highest_bit_spec _ Hu Hlive) as (Hi & Hset & Habove).
    split; [|split; [|split]].
    + subst i m. repeat split; try assumption; lia.
    + intros j Hj. apply clear_highest_bit_bits; assumption.
    + apply service_gpio_pulse_hold.
    + apply service_gpio_pulse_due; assumption.
  - intros s rest t0 Hrx e J1 J2 J3 J4.
    assert (U : forall k, 0 <= k < 2 ^ 6 -> u32 k) by (unfold u32; lia).
    split; [|split; [|split; [|split]]].
    + rewrite (handle_solenoid_pulse_frame t0 s _ _ _ _ _ _ _ _ _ _ Hrx).
      change (decode32 x00 x00 x00 x1a) with 26.
      change (decode32 x00 x00 x00 x32) with 50.
      cbv zeta. change (util.get_highest_bit 26) with 4.
      reflexivity.
    + intros t a a' H.
      repeat split; apply job_state_hold; exact H.
    + intros t b b' H. repeat split.
      * unfold J1. rewrite job_state_step;
          [reflexivity | apply U; lia | lia | vm_compute; reflexivity | exact H].
      * unfold J2. rewrite job_state_step;
          [reflexivity | apply U; lia | lia | vm_compute; reflexivity | exact H].
      * unfold J3. rewrite job_state_step;
          [reflexivity | apply U; lia | lia | vm_compute; reflexivity | exact H].
    + intros t t'. apply service_gpio_pulse_idle. reflexivity.
    + intros p Hp. unfold J4, job_state. cbn [trace].
      rewrite pin_output_app. cbn [fold_left drive].
      destruct (Z.eqb_spec (e 1%nat) p) as [E1|E1]; [reflexivity|].
      destruct (Z.eqb_spec (e 3%nat) p) as [E3|E3]; [reflexivity|].
      destruct (Z.eqb_spec (e 4%nat) p) as [E4|E4]; [reflexivity|].
      destruct Hp as [Hin|Hlow]; [|exact Hlow].
      cbn [In] in Hin. intuition congruence.
Qed.

(** Right after the command for mask {1,3,4} was served at time 0, the step
    at 50 ms ends the hold of actuator 4; the schedule itself, on the pins
    14..19. *)
Lemma pulse_schedule_witness :
  let s0 := init (new pulse_134_50 [5; 6; 9; 10; 11] [14; 15; 16; 17; 18; 19]) in
  let s := service (instant 0) s0 in
  (_fingers_to_pulse s = 26 /\
   service_gpio_pulse 50 50 s = pulse_step_result 50 s /\
   _fingers_to_pulse (service_gpio_pulse 50 50 s) = 10) /\
  (handle_solenoid_pulse 0 s0 = job_state s0 [] 26 50 0 [DigitalWrite 18 HIGH] /\
   service_gpio_pulse 50 50
     (job_state s0 [] 26 50 0 [DigitalWrite 18 HIGH]) =
   job_state s0 [] 10 50 50
     [DigitalWrite 18 HIGH; DigitalWrite 18 LOW; DigitalWrite 17 HIGH]).
Proof.
  intros s0 s. split.
  - assert (Hr : reachable s).
    { apply reach_service, reach_init, reach_new; reflexivity. }
    assert (Hlive : _fingers_to_pulse s <> 0) by (vm_compute; discriminate).
    destruct (proj1 pulse_schedule s 50 50 Hr Hlive) as (_ & _ & _ & Hdue).
    assert (E : service_gpio_pulse 50 50 s = pulse_step_result 50 s).
    { apply Hdue. vm_compute. discriminate. }
    split; [reflexivity|]. split; [exact E|].
    rewrite E. reflexivity.
  - destruct (proj2 pulse_schedule s0 [] 0 eq_refl) as (H1 & _ & H3 & _).
    split; [exact H1|].
    apply (H3 0 50 50). vm_compute. discriminate.
Defined.

(** ** C9, continued: the exact pins and the exact range *)

Section ErmRange.

(** A trigger whose mask passes the guard: the state that results. *)
Lemma handle_solenoid_pulse_accepts now s op m0 m1 m2 m3 d0 d1 d2 d3 rest :
  _uart s = op :: m0 :: m1 :: m2 :: m3 :: d0 :: d1 :: d2 :: d3 :: rest ->
  decode32 m0 m1 m2 m3 <> 0 ->
  util.get_highest_bit (decode32 m0 m1 m2 m3) < Z.of_nat ERM_COUNT ->
  handle_solenoid_pulse now s =
  job_state s rest (decode32 m0 m1 m2 m3) (decode32 d0 d1 d2 d3) now
    [DigitalWrite
       (at_index (_erm_pins s)
          (Z.to_nat (util.get_highest_bit (decode32 m0 m1 m2 m3)))) HIGH].
Proof.
  intros Hrx Hnz Hb.
  rewrite (handle_solenoid_pulse_frame now s _ _ _ _ _ _ _ _ _ _ Hrx).
  cbv zeta. rewrite (proj2 (Z.eqb_neq _ _) Hnz).
  rewrite (valid_index _ (decode32_u32 _ _ _ _) Hnz Hb).
  reflexivity.
Qed.

(** A due step on a mask whose highest set bit is 6 or more: the job is
    dropped and only the diagnostic line is printed. *)
Lemma service_gpio_pulse_rejects now now' s :
  Z.of_nat ERM_COUNT <= util.get_highest_bit (_fingers_to_pulse s) ->
  _pulse_dur_ms s <= wrap32 (now - _pulse_start_ms s) ->
  service_gpio_pulse now now' s =
  set_fingers_to_pulse 0
    (Serial_println "!!! Invalid values in pulse"%string s).
Proof.
  intros Hb Hdue. unfold service_gpio_pulse.
  destruct (Z.eqb_spec (_fingers_to_pulse s) 0) as [Hz|_].
  { rewrite Hz in Hb. change (util.get_highest_bit 0) with (-1) in Hb.
    unfold ERM_COUNT in Hb. lia. }
  rewrite (proj2 (Z.ltb_ge _ _) Hdue).
  assert (Hinv : invalid_pulse_index
                   (util.get_highest_bit (_fingers_to_pulse s)) = true).
  { unfold invalid_pulse_index. apply orb_true_iff. right.
    apply Z.leb_le. exact Hb. }
  rewrite Hinv. reflexivity.
Qed.

End ErmRange.

(** C9. The pulse command and the pulse scheduler work on the ERM pin table
    with the ERM index range 0..5, not on the solenoid table and its range.
    - A pulse mask whose highest set bit is 5 is accepted: the trigger
      drives [_erm_pins[5]] high, and the scheduler step that ends that hold
      accepts index 5 too, drives [_erm_pins[5]] low and, if bits remain,
      [_erm_pins] at the next highest set bit high.
    - For every mask whose highest set bit is at most 5, the trigger
      activates exactly [_erm_pins] at that bit, and every due scheduler step
      deactivates exactly [_erm_pins] at the highest set bit and activates
      exactly [_erm_pins] at the next one.
    - A due scheduler step on a mask whose highest set bit is 6 or more
      writes no pin and drops the job.
    - In every state, every pin write of either is to an entry of
      [_erm_pins] at an index below [ERM_COUNT], and neither reads the
      solenoid pin table. *)
Theorem pulse_uses_erm_table
  now s op m0 m1 m2 m3 d0 d1 d2 d3 rest :
  _uart s = op :: m0 :: m1 :: m2 :: m3 :: d0 :: d1 :: d2 :: d3 :: rest ->
  let m := decode32 m0 m1 m2 m3 in
  let d := decode32 d0 d1 d2 d3 in
  util.get_highest_bit m = Z.of_nat ERM_COUNT - 1 ->
  let s' := handle_solenoid_pulse now s in
  let high5 := DigitalWrite (at_index (_erm_pins s) 5) HIGH in
  let low5 := DigitalWrite (at_index (_erm_pins s) 5) LOW in
  (s' = job_state s rest m d now [high5] /\
   _fingers_to_pulse s' = m /\
   _pulse_start_ms s' = now /\
   trace s' = trace s ++ [high5]) /\
  (forall t t',
      d <= wrap32 (t - now) ->
      service_gpio_pulse t t' s' =
      if util.clear_highest_bit m =? 0
      then job_state s rest 0 d 0 [high5; low5]
      else job_state s rest (util.clear_highest_bit m) d t'
             [high5; low5;
              DigitalWrite
                (at_index (_erm_pins s)
                   (Z.to_nat
                      (util.get_highest_bit (util.clear_highest_bit m))))
                HIGH]) /\
  (forall t u op' a0 a1 a2 a3 e0 e1 e2 e3 rest',
      _uart u =
        op' :: a0 :: a1 :: a2 :: a3 :: e0 :: e1 :: e2 :: e3 :: rest' ->
      decode32 a0 a1 a2 a3 <> 0 ->
      util.get_highest_bit (decode32 a0 a1 a2 a3) < Z.of_nat ERM_COUNT ->
      handle_solenoid_pulse t u =
      job_state u rest' (decode32 a0 a1 a2 a3) (decode32 e0 e1 e2 e3) t
        [DigitalWrite
           (at_index (_erm_pins u)
              (Z.to_nat (util.get_highest_bit (decode32 a0 a1 a2 a3))))
           HIGH]) /\
  (forall t t' u,
      u32 (_fingers_to_pulse u) -> _fingers_to_pulse u <> 0 ->
      util.get_highest_bit (_fingers_to_pulse u) < Z.of_nat ERM_COUNT ->
      _pulse_dur_ms u <= wrap32 (t - _pulse_start_ms u) ->
      service_gpio_pulse t t' u = pulse_step_result t' u) /\
  (forall t t' u,
      Z.of_nat ERM_COUNT <= util.get_highest_bit (_fingers_to_pulse u) ->
      _pulse_dur_ms u <= wrap32 (t - _pulse_start_ms u) ->
      service_gpio_pulse t t' u =
      set_fingers_to_pulse 0
        (Serial_println "!!! Invalid values in pulse"%string u)) /\
  (forall t u, exists evs,
      trace (handle_solenoid_pulse t u) = trace u ++ evs /\
      Forall (erm_event u) evs) /\
  (forall t t' u, exists evs,
      trace (service_gpio_pulse t t' u) = trace u ++ evs /\
      Forall (erm_event u) evs) /\
  (forall t t' pins u,
      handle_solenoid_pulse t (set_solenoid_pins pins u) =
        set_solenoid_pins pins (handle_solenoid_pulse t u) /\
      service_gpio_pulse t t' (set_solenoid_pins pins u) =
        set_solenoid_pins pins (service_gpio_pulse t t' u)).
Proof.
  intros Hrx m d Hhb s' high5 low5.
  assert (Hnz : m <> 0).
  { intros Hz. rewrite Hz in Hhb. vm_compute in Hhb. discriminate Hhb. }
  assert (Hb : util.get_highest_bit m < Z.of_nat ERM_COUNT) by lia.
  assert (Hs' : s' = job_state s rest m d now [high5]).
  { subst s' high5.
    rewrite (handle_solenoid_pulse_accepts now s _ _ _ _ _ _ _ _ _ _ Hrx Hnz Hb).
    fold m d. rewrite Hhb. reflexivity. }
  split; [|split; [|split; [|split; [|split; [|split; [|split]]]]]].
  - split; [exact Hs'|]. rewrite Hs'. repeat split; reflexivity.
  - intros t t' Hdue. rewrite Hs'.
    rewrite job_state_step;
      [| apply decode32_u32 | exact Hnz | exact Hb | exact Hdue].
    cbv zeta. rewrite Hhb. reflexivity.
  - intros t u op' a0 a1 a2 a3 e0 e1 e2 e3 rest' Hu Hnu Hbu.
    apply (handle_solenoid_pulse_accepts t u op'); assumption.
  - intros t t' u Hu Hnu Hbu Hdue.
    apply service_gpio_pulse_due; assumption.
  - intros t t' u Hbu Hdue. apply service_gpio_pulse_rejects; assumption.
  - intros t u. apply handle_solenoid_pulse_events.
  - intros t t' u. apply service_gpio_pulse_events.
  - intros t t' pins u. split.
    + apply handle_solenoid_pulse_set_solenoid_pins.
    + apply service_gpio_pulse_set_solenoid_pins.
Qed.

(** Mask {5} with disjoint tables: the trigger writes ERM pin 19 high and the
    scheduler step that ends the 50 ms hold writes it low. *)
Lemma pulse_uses_erm_table_witness :
  let s := new [x02; x00; x00; x00; x20; x00; x00; x00; x32]
             [5; 6; 9; 10; 11] [14; 15; 16; 17; 18; 19] in
  _fingers_to_pulse (handle_solenoid_pulse 7 s) = 32 /\
  trace (handle_solenoid_pulse 7 s) = [DigitalWrite 19 HIGH] /\
  service_gpio_pulse 60 60 (handle_solenoid_pulse 7 s) =
    job_state s [] 0 50 0 [DigitalWrite 19 HIGH; DigitalWrite 19 LOW].
Proof.
  intros s.
  pose proof (pulse_uses_erm_table 7 s x02 x00 x00 x00 x20
                x00 x00 x00 x32 [] eq_refl eq_refl) as H.
  cbv zeta in H. destruct H as ((_ & Hf & _ & Ht) & Hstep & _).
  split; [exact Hf|]. split; [exact Ht|].
  apply (Hstep 60 60). vm_compute. discriminate.
Defined.

(** ** The dispatcher *)

Section Dispatcher.

Lemma handle_erm_set_short s :
  (length (_uart s) < sizeof ErmSet)%nat -> handle_erm_set s = s.
Proof.
  intros H. unfold handle_erm_set, available. rewrite Nat2Z.id.
  apply Nat.ltb_lt in H. rewrite H. reflexivity.
Qed.

(** [service] on a non-empty FIFO: the scheduler step, then the switch. *)
Lemma service_dispatch c s b rest :
  _uart s = b :: rest ->
  service c s =
  handler_of b (at_trigger c)
    (service_gpio_pulse (at_hold_check c) (at_next_pulse c) s).
Proof.
  intros Hrx. unfold service, handler_of, available, peek.
  rewrite service_gpio_pulse_uart, Hrx.
  rewrite Z.mod_small by apply byte_val_range.
  cbn [length]. destruct (Z.leb_spec (Z.of_nat (S (length rest))) 0); [lia|].
  reflexivity.
Qed.

Lemma service_empty c s :
  _uart s = [] ->
  service c s = service_gpio_pulse (at_hold_check c) (at_next_pulse c) s.
Proof.
  intros Hrx. unfold service, available.
  rewrite service_gpio_pulse_uart, Hrx. reflexivity.
Qed.

Lemma handler_of_awaiting b now s :
  awaiting (_uart s) = true -> hd_error (_uart s) = Some b ->
  handler_of b now s = s.
Proof.
  intros Ha Hb. destruct (_uart s) as [|b' rest] eqn:Hrx; [discriminate|].
  cbn in Hb. injection Hb as ->.
  unfold awaiting, frame_width in Ha. unfold handler_of.
  destruct (byte_val b =? SOLENOID_WRITE).
  { apply handle_solenoid_write_short. rewrite Hrx. apply Nat.ltb_lt, Ha. }
  destruct (byte_val b =? SOLENOID_PULSE).
  { apply handle_solenoid_pulse_short. rewrite Hrx. apply Nat.ltb_lt, Ha. }
  destruct (byte_val b =? ERM_SET).
  { apply handle_erm_set_short. rewrite Hrx. apply Nat.ltb_lt, Ha. }
  reflexivity.
Qed.

(** The dispatcher leaves an awaiting FIFO alone: the tick is the scheduler
    step and nothing else. *)
Lemma service_awaiting c s :
  awaiting (_uart s) = true ->
  service c s = service_gpio_pulse (at_hold_check c) (at_next_pulse c) s.
Proof.
  intros Ha. destruct (_uart s) as [|b rest] eqn:Hrx.
  - apply service_empty; exact Hrx.
  - rewrite (service_dispatch c s b rest Hrx).
    apply handler_of_awaiting.
    + rewrite service_gpio_pulse_uart, Hrx. exact Ha.
    + rewrite service_gpio_pulse_uart, Hrx. reflexivity.
Qed.

Lemma deliver_nil s : deliver [] s = s.
Proof. unfold deliver, set_uart. rewrite app_nil_r. destruct s; reflexivity. Qed.

Lemma deliver_deliver a b s : deliver b (deliver a s) = deliver (a ++ b) s.
Proof. unfold deliver, set_uart. cbn. rewrite app_assoc. reflexivity. Qed.

Lemma run_scheduler_deliver ds : forall bytes s,
  run_scheduler ds (deliver bytes s) = deliver bytes (run_scheduler ds s).
Proof.
  induction ds as [|d ds IH]; intros bytes s; cbn [run_scheduler fold_left];
    [reflexivity|].
  rewrite service_gpio_pulse_deliver. apply IH.
Qed.

Lemma run_scheduler_uart ds : forall s, _uart (run_scheduler ds s) = _uart s.
Proof.
  induction ds as [|d ds IH]; intros s; cbn [run_scheduler fold_left];
    [reflexivity|].
  unfold run_scheduler in IH. rewrite IH. apply service_gpio_pulse_uart.
Qed.

Lemma run_app ds ds' s : run (ds ++ ds') s = run ds' (run ds s).
Proof. unfold run. apply fold_left_app. Qed.

(** As long as the FIFO stays awaiting, running the ticks only runs the
    scheduler and piles up the bytes. *)
Lemma run_awaiting ds : forall s,
  (forall k, (1 <= k <= length ds)%nat ->
             awaiting (_uart s ++ concat (map fst (firstn k ds))) = true) ->
  run ds s = deliver (concat (map fst ds)) (run_scheduler ds s).
Proof.
  induction ds as [|[bytes c] ds IH]; intros s Hall.
  - cbn. symmetry. apply deliver_nil.
  - cbn [run fold_left run_scheduler map concat fst snd].
    assert (H1 : awaiting (_uart (deliver bytes s)) = true).
    { specialize (Hall 1%nat ltac:(cbn [length]; lia)).
      cbn in Hall. rewrite app_nil_r in Hall. exact Hall. }
    unfold poll. cbn [fst snd].
    rewrite (service_awaiting c _ H1), service_gpio_pulse_deliver.
    fold (run ds (deliver bytes
                    (service_gpio_pulse (at_hold_check c) (at_next_pulse c) s))).
    rewrite IH.
    + rewrite run_scheduler_deliver, deliver_deliver. reflexivity.
    + intros k Hk. specialize (Hall (S k) ltac:(cbn [length]; lia)).
      cbn [firstn map concat fst] in Hall.
      cbn [deliver set_uart _uart]. rewrite service_gpio_pulse_uart.
      rewrite <- app_assoc. exact Hall.
Qed.

Lemma silent_bytes ds : concat (map fst (silent ds)) = [].
Proof. induction ds as [|d ds IH]; [reflexivity | exact IH]. Qed.

Lemma silent_firstn k ds : firstn k (silent ds) = silent (firstn k ds).
Proof. unfold silent. apply firstn_map. Qed.

Lemma run_scheduler_silent ds : forall s,
  run_scheduler (silent ds) s = run_scheduler ds s.
Proof.
  induction ds as [|d ds IH]; intros s; [reflexivity|].
  cbn [silent map run_scheduler fold_left snd]. apply IH.
Qed.

(** A proper prefix of a frame is awaiting. *)
Lemma awaiting_prefix f b tl p q :
  f = b :: tl -> frame_width b = Some (length f) ->
  p ++ q = f -> q <> [] -> awaiting p = true.
Proof.
  intros Hf Hw Hpq Hq. destruct p as [|b' p']; [reflexivity|].
  assert (Hlen : (length (b' :: p') < length f)%nat).
  { rewrite <- Hpq, length_app. destruct q; [congruence | cbn; lia]. }
  rewrite Hf in Hpq. cbn in Hpq. injection Hpq as -> _.
  unfold awaiting. rewrite Hw. apply Nat.ltb_lt. exact Hlen.
Qed.

Lemma handle_solenoid_write_uart s :
  (sizeof SolenoidWrite <= length (_uart s))%nat ->
  _uart (handle_solenoid_write s) = skipn (sizeof SolenoidWrite) (_uart s).
Proof.
  intros H. unfold handle_solenoid_write, parse_bytes, available.
  rewrite Nat2Z.id. apply Nat.ltb_ge in H. rewrite H. cbn [read].
  match goal with
  | |- _uart (fold_left ?f ?l ?s0) = _ =>
      destruct (loop_device f l) with (s := s0) as [_ ->]
  end.
  - intros u i. destruct (util.is_set _ _); split; reflexivity.
  - reflexivity.
Qed.

Lemma handle_erm_set_uart s :
  (sizeof ErmSet <= length (_uart s))%nat ->
  _uart (handle_erm_set s) = skipn (sizeof ErmSet) (_uart s).
Proof.
  intros H. unfold handle_erm_set, parse_bytes, available.
  rewrite Nat2Z.id. apply Nat.ltb_ge in H. rewrite H. cbn [read].
  match goal with
  | |- _uart (fold_left ?f ?l ?s0) = _ =>
      destruct (loop_device f l) with (s := s0) as [_ ->]
  end.
  - intros u i. destruct (util.is_set _ _); split; reflexivity.
  - reflexivity.
Qed.

Lemma handle_solenoid_pulse_uart now s :
  (sizeof SolenoidPulse <= length (_uart s))%nat ->
  _uart (handle_solenoid_pulse now s) = skipn (sizeof SolenoidPulse) (_uart s).
Proof.
  intros H. unfold handle_solenoid_pulse, parse_bytes, available.
  rewrite Nat2Z.id. apply Nat.ltb_ge in H. rewrite H. cbn [read].
  unfold_setters. repeat case_if; reflexivity.
Qed.

(** A handler given its whole frame consumes exactly the frame. *)
Lemma handler_of_consumes b w now s :
  frame_width b = Some w -> (w <= length (_uart s))%nat ->
  _uart (handler_of b now s) = skipn w (_uart s).
Proof.
  unfold frame_width, handler_of. intros Hw Hlen.
  destruct (byte_val b =? SOLENOID_WRITE);
    [injection Hw as <-; apply handle_solenoid_write_uart; exact Hlen|].
  destruct (byte_val b =? SOLENOID_PULSE);
    [injection Hw as <-; apply handle_solenoid_pulse_uart; exact Hlen|].
  destruct (byte_val b =? ERM_SET);
    [injection Hw as <-; apply handle_erm_set_uart; exact Hlen|].
  discriminate.
Qed.

End Dispatcher.

(** ** C8: an unrecognised leading byte *)

(** C8. When the byte at the head of the FIFO is none of the three opcodes,
    the dispatcher does nothing: the tick is the scheduler step alone (so it
    changes nothing at all when no job is live or the hold is not over), the
    FIFO is untouched, and
    over any later sequence of ticks and deliveries only scheduler steps run
    while the byte stays at the head with the new bytes queued behind it. *)
Theorem unknown_opcode_stalls c s b rest :
  _uart s = b :: rest ->
  frame_width b = None ->
  service c s = service_gpio_pulse (at_hold_check c) (at_next_pulse c) s /\
  _uart (service c s) = b :: rest /\
  (_fingers_to_pulse s = 0 \/
   wrap32 (at_hold_check c - _pulse_start_ms s) < _pulse_dur_ms s ->
   service c s = s) /\
  forall ds,
    run ds s = deliver (concat (map fst ds)) (run_scheduler ds s) /\
    _uart (run ds s) = b :: rest ++ concat (map fst ds).
Proof.
  intros Hrx Hw.
  assert (Ha : forall extra, awaiting (_uart s ++ extra) = true).
  { intros extra. rewrite Hrx. cbn [app awaiting]. rewrite Hw. reflexivity. }
  assert (Hs : service c s =
               service_gpio_pulse (at_hold_check c) (at_next_pulse c) s).
  { apply service_awaiting. rewrite <- (app_nil_r (_uart s)). apply Ha. }
  split; [exact Hs|]. split; [|split].
  - rewrite Hs, service_gpio_pulse_uart. exact Hrx.
  - intros [Hidle|Hhold]; rewrite Hs.
    + apply service_gpio_pulse_idle. exact Hidle.
    + apply service_gpio_pulse_hold. exact Hhold.
  - intros ds.
    assert (Hrun : run ds s = deliver (concat (map fst ds)) (run_scheduler ds s)).
    { apply run_awaiting. intros k _. apply Ha. }
    split; [exact Hrun|].
    rewrite Hrun. cbn [deliver set_uart _uart].
    rewrite run_scheduler_uart, Hrx. reflexivity.
Qed.

Lemma unknown_opcode_stalls_witness :
  let s := init (new [x07; x01] [5; 6; 9; 10; 11] [14; 15; 16; 17; 18; 19]) in
  service (instant 3) s = s /\
  _uart (run [([x01; x00], instant 4); ([x00; x00; x1f; x01], instant 5)] s)
  = [x07; x01; x01; x00; x00; x00; x1f; x01].
Proof.
  intros s.
  destruct (unknown_opcode_stalls (instant 3) s x07 [x01] eq_refl eq_refl)
    as (_ & _ & Hidle & Hrun).
  split.
  - apply Hidle. left. reflexivity.
  - apply (proj2 (Hrun [([x01; x00], instant 4);
                        ([x00; x00; x1f; x01], instant 5)])).
Defined.

(** ** C1: frame assembly *)

(** C1, as the code has it. For a frame [f] with a recognised opcode and the
    width [w] that opcode announces:
    - while only a proper prefix of [f] is in the FIFO, a tick consumes no
      byte and the dispatcher has no effect: the tick is the pulse
      scheduler's own step and nothing else, hence no change at all when no
      job is live or the hold is not over;
    - on a tick with the whole of [f] at the head of the FIFO, the handler of
      the opcode runs, after the scheduler step, and takes exactly the [w]
      bytes of [f] off the FIFO;
    - however the bytes of [f] are split over deliveries, the state after the
      tick that completes [f] is the state reached when nothing is delivered
      on the earlier ticks and all the bytes arrive for that last tick. *)
Theorem frame_assembly f b tl w :
  f = b :: tl -> frame_width b = Some w -> length f = w ->
  (forall c s q,
      _uart s ++ q = f -> q <> [] ->
      service c s = service_gpio_pulse (at_hold_check c) (at_next_pulse c) s /\
      _uart (service c s) = _uart s /\
      (_fingers_to_pulse s = 0 \/
       wrap32 (at_hold_check c - _pulse_start_ms s) < _pulse_dur_ms s ->
       service c s = s)) /\
  (forall c s rest,
      _uart s = f ++ rest ->
      service c s =
        handler_of b (at_trigger c)
          (service_gpio_pulse (at_hold_check c) (at_next_pulse c) s) /\
      _uart (service c s) = rest) /\
  (forall s0 pre chunk rest c,
      _uart s0 ++ concat (map fst pre) ++ chunk = f -> chunk <> [] ->
      run (pre ++ [(chunk ++ rest, c)]) s0 =
      run (silent pre ++ [(concat (map fst pre) ++ chunk ++ rest, c)]) s0).
Proof.
  intros Hf Hw Hlen. subst w.
  split; [|split].
  - intros c s q Hq Hne.
    assert (Hs : service c s =
                 service_gpio_pulse (at_hold_check c) (at_next_pulse c) s).
    { apply service_awaiting. eapply awaiting_prefix; eassumption. }
    split; [exact Hs|]. split.
    + rewrite Hs. apply service_gpio_pulse_uart.
    + intros [Hidle|Hhold]; rewrite Hs.
      * apply service_gpio_pulse_idle. exact Hidle.
      * apply service_gpio_pulse_hold. exact Hhold.
  - intros c s rest Hrx.
    assert (Hd : service c s =
                 handler_of b (at_trigger c)
                   (service_gpio_pulse (at_hold_check c) (at_next_pulse c) s)).
    { apply (service_dispatch c s b (tl ++ rest)). rewrite Hrx, Hf. reflexivity. }
    split; [exact Hd|].
    rewrite Hd, (handler_of_consumes b (length f)).
    + rewrite service_gpio_pulse_uart, Hrx.
      rewrite skipn_app, Nat.sub_diag, skipn_all. reflexivity.
    + exact Hw.
    + rewrite service_gpio_pulse_uart, Hrx, length_app. lia.
  - intros s0 pre chunk rest c Hall Hne.
    assert (Hpre : forall k, awaiting
                     (_uart s0 ++ concat (map fst (firstn k pre))) = true).
    { intros k.
      apply (awaiting_prefix f b tl _
               (concat (map fst (skipn k pre)) ++ chunk) Hf Hw).
      - rewrite <- Hall, <- app_assoc. f_equal.
        rewrite app_assoc, <- concat_app, <- map_app, firstn_skipn.
        reflexivity.
      - intros H. apply app_eq_nil in H. destruct H as [_ H]. contradiction. }
    rewrite !run_app.
    rewrite (run_awaiting pre) by (intros k _; apply Hpre).
    rewrite (run_awaiting (silent pre)).
    + rewrite silent_bytes, deliver_nil, run_scheduler_silent.
      cbn [run fold_left]. unfold poll. cbn [fst snd].
      rewrite deliver_deliver. reflexivity.
    + intros k _. rewrite silent_firstn, silent_bytes, app_nil_r.
      specialize (Hpre 0%nat). cbn in Hpre. rewrite app_nil_r in Hpre.
      exact Hpre.
Qed.

(** A WRITE frame for mask 0b101 arriving in three pieces. *)
Lemma frame_assembly_witness :
  let s0 := init (new [] [5; 6; 9; 10; 11] [14; 15; 16; 17; 18; 19]) in
  run [([x01; x00], instant 1); ([x00; x00], instant 2);
       ([x05; x01; x03], instant 3)] s0 =
  run [([], instant 1); ([], instant 2);
       ([x01; x00; x00; x00; x05; x01; x03], instant 3)] s0.
Proof.
  intros s0.
  destruct (frame_assembly [x01; x00; x00; x00; x05; x01] x01
              [x00; x00; x00; x05; x01] 6 eq_refl eq_refl eq_refl)
    as (_ & _ & H).
  apply (H s0 [([x01; x00], instant 1); ([x00; x00], instant 2)]
           [x05; x01] [x03] (instant 3)).
  - reflexivity.
  - discriminate.
Defined.

(** C1 as stated fails: a tick on which only the first byte of a WRITE frame
    is available still runs the pulse scheduler, which here ends the hold of
    actuator 4 and starts that of actuator 3. *)
Lemma partial_frame_tick_has_effects :
  let s := deliver [x01]
             (service (instant 0)
                (init (new pulse_134_50 [5; 6; 9; 10; 11]
                         [14; 15; 16; 17; 18; 19]))) in
  _uart s = [x01] /\
  frame_width x01 = Some 6%nat /\
  _uart (service (instant 50) s) = [x01] /\
  trace (service (instant 50) s) =
    trace s ++ [DigitalWrite 18 LOW; DigitalWrite 17 HIGH] /\
  _fingers_to_pulse s = 26 /\
  _fingers_to_pulse (service (instant 50) s) = 10 /\
  service (instant 50) s <> s.
Proof.
  cbv zeta.
  split; [vm_compute; reflexivity|].
  split; [vm_compute; reflexivity|].
  split; [vm_compute; reflexivity|].
  split; [vm_compute; reflexivity|].
  split; [vm_compute; reflexivity|].
  split; [vm_compute; reflexivity|].
  intros H. apply (f_equal _fingers_to_pulse) in H.
  vm_compute in H. discriminate H.
Qed.

(** ** Further properties of util.hpp *)

Section ByteOrder.

Lemma lor_disjoint (a b : Z) : Z.land a b = 0 -> Z.lor a b = a + b.
Proof. intros H. rewrite <- Z.add_lor_land, H. lia. Qed.

Lemma shiftl_byte_val (b : byte) (n : Z) :
  0 <= n -> Z.shiftl (byte_val b) n = byte_val b * 2 ^ n.
Proof. intros Hn. apply Z.shiftl_mul_pow2. exact Hn. Qed.

End ByteOrder.

(** X1. The byte swap maps 32-bit values to 32-bit values and is its own
    inverse on them. *)
Theorem byte_swap32_involutive (x : Z) :
  u32 x ->
  u32 (util.byte_swap32 x) /\
  util.byte_swap32 (util.byte_swap32 x) = x.
Proof.
  intros Hx. split; [apply byte_swap32_u32|].
  apply Z.bits_inj'. intros j Hj.
  unfold util.byte_swap32. change 0xFF with (Z.ones 8).
  destruct (Z_lt_le_dec j 8);
    [|destruct (Z_lt_le_dec j 16);
      [|destruct (Z_lt_le_dec j 24); [|destruct (Z_lt_le_dec j 32)]]].
  all: repeat bit1.
  all: repeat match goal with
       | |- context [Z.testbit ?a ?k] =>
           first [ rewrite (Z.testbit_neg_r a k) by lia
                 | rewrite (u32_high_bits a k) by (assumption || lia) ]
       end.
  all: repeat rewrite ?orb_false_r, ?orb_false_l, ?andb_true_r, ?andb_false_r;
    try reflexivity.
  all: f_equal; lia.
Qed.

Lemma byte_swap32_involutive_witness :
  util.byte_swap32 (util.byte_swap32 0x12345678) = 0x12345678 /\
  util.byte_swap32 0x12345678 = 0x78563412.
Proof.
  split.
  - exact (proj2 (byte_swap32_involutive 0x12345678
                    ltac:(unfold u32; lia))).
  - reflexivity.
Defined.

Section WireOrder.

Ltac byte_bits :=
  apply Z.bits_inj'; intros j Hj; rewrite Z.bits_0;
  (destruct (Z_lt_le_dec j 8);
   [|destruct (Z_lt_le_dec j 16);
     [|destruct (Z_lt_le_dec j 24); [|destruct (Z_lt_le_dec j 32)]]]);
  repeat bit1;
  repeat match goal with
    | |- context [Z.testbit (byte_val ?b) ?k] =>
        first [ rewrite (Z.testbit_neg_r (byte_val b) k) by lia
              | rewrite (byte_val_high b k) by lia ]
    end;
  repeat rewrite ?orb_false_r, ?orb_false_l, ?andb_false_r, ?andb_false_l;
  reflexivity.

Lemma wire_bytes_disjoint b0 b1 b2 b3 :
  Z.land (Z.shiftl (byte_val b0) 24) (Z.shiftl (byte_val b1) 16) = 0 /\
  Z.land (Z.shiftl (byte_val b2) 8) (byte_val b3) = 0 /\
  Z.land (Z.lor (Z.shiftl (byte_val b0) 24) (Z.shiftl (byte_val b1) 16))
         (Z.lor (Z.shiftl (byte_val b2) 8) (byte_val b3)) = 0.
Proof. split; [|split]; byte_bits. Qed.

Lemma decode32_be32 b0 b1 b2 b3 : decode32 b0 b1 b2 b3 = be32 b0 b1 b2 b3.
Proof.
  destruct (wire_bytes_disjoint b0 b1 b2 b3) as (H1 & H2 & H3).
  rewrite decode32_wire.
  rewrite (lor_disjoint _ _ H3), (lor_disjoint _ _ H1), (lor_disjoint _ _ H2).
  rewrite !shiftl_byte_val by lia. unfold be32. ring.
Qed.

End WireOrder.


(** X3. [is_set] is the bit test with the index bounded: an index above 31
    is never set, whatever the mask, and on a 32-bit mask [is_set] agrees
    with the bit of that index for every index. *)
Theorem is_set_bounded (mask n : Z) :
  0 <= n ->
  util.is_set mask n = (n <=? 31) && Z.testbit mask n /\
  (u32 mask -> util.is_set mask n = Z.testbit mask n).
Proof.
  intros Hn.
  assert (E : util.is_set mask n = (n <=? 31) && Z.testbit mask n).
  { unfold util.is_set.
    destruct (Z.ltb_spec 31 n), (Z.leb_spec n 31); try (exfalso; lia);
      [reflexivity|].
    rewrite land_bit_test by lia. apply negb_involutive. }
  split; [exact E|].
  intros Hm. rewrite E. destruct (Z.leb_spec n 31); [reflexivity|].
  rewrite (u32_high_bits mask n Hm) by lia. reflexivity.
Qed.

Lemma is_set_bounded_witness :
  util.is_set 0x25 5 = true /\ util.is_set (2 ^ 40) 40 = false.
Proof.
  split.
  - rewrite (proj1 (is_set_bounded 0x25 5 ltac:(lia))). reflexivity.
  - rewrite (proj1 (is_set_bounded (2 ^ 40) 40 ltac:(lia))). reflexivity.
Defined.

(** ** Further properties of truetouch.cpp *)

Section ErmSet.

(** The PWM loop over any list of indices. *)
Lemma pwm_loop_spec (m : Z) (v : byte) (l : list nat) : forall s,
  fold_left (fun s pin_idx =>
               if util.is_set m (Z.of_nat pin_idx)
               then analogWrite (at_index (_erm_pins s) pin_idx) v s
               else s) l s =
  {| _uart := _uart s;
     _fingers_to_pulse := _fingers_to_pulse s;
     _pulse_dur_ms := _pulse_dur_ms s;
     _pulse_start_ms := _pulse_start_ms s;
     _solenoid_pins := _solenoid_pins s;
     _erm_pins := _erm_pins s;
     trace := trace s ++
              map (fun i => AnalogWrite (at_index (_erm_pins s) i) v)
                  (filter (fun i => util.is_set m (Z.of_nat i)) l) |}.
Proof.
  induction l as [|i l IH]; intros s; cbn [fold_left filter map].
  - rewrite app_nil_r. destruct s; reflexivity.
  - rewrite IH.
    destruct (util.is_set m (Z.of_nat i)); cbn; [|reflexivity].
    rewrite <- app_assoc. reflexivity.
Qed.

Lemma handle_erm_set_frame s op m0 m1 m2 m3 v rest :
  _uart s = op :: m0 :: m1 :: m2 :: m3 :: v :: rest ->
  handle_erm_set s =
  fold_left (fun s pin_idx =>
               if util.is_set (decode32 m0 m1 m2 m3) (Z.of_nat pin_idx)
               then analogWrite (at_index (_erm_pins s) pin_idx) v s
               else s)
            (seq 0 ERM_COUNT) (set_uart rest s).
Proof.
  intros Hrx. unfold handle_erm_set, parse_bytes, read, available.
  rewrite Hrx, Nat2Z.id. reflexivity.
Qed.

(** Setting one duty cycle on a list of pins. *)
Lemma drive_pwm (pins : list Z) (v : byte) (p : Z) : forall acc,
  fold_left (drive p) (map (fun q => AnalogWrite q v) pins) acc =
  if existsb (fun q => q =? p) pins then Some (Pwm v) else acc.
Proof.
  induction pins as [|q pins IH]; intros acc; cbn [map fold_left existsb];
    [reflexivity|].
  rewrite IH. cbn [drive].
  destruct (q =? p); cbn [orb]; [|reflexivity].
  destruct (existsb _ pins); reflexivity.
Qed.

End ErmSet.

(** X4. An ERM_SET command with decoded mask [m] and intensity byte [v] sets
    the PWM duty [v] on the ERM pins of exactly the indices 0..5 whose bit is
    set in [m], in ascending order, and does nothing else: bits at index 6
    and above cause no write, every pin addressed ends at duty [v], every
    other pin keeps its output, the frame's six bytes are consumed and the
    scheduler fields are untouched. *)
Theorem erm_set_drives_set_bits s op m0 m1 m2 m3 v rest :
  _uart s = op :: m0 :: m1 :: m2 :: m3 :: v :: rest ->
  let m := decode32 m0 m1 m2 m3 in
  let s' := handle_erm_set s in
  s' = {| _uart := rest;
          _fingers_to_pulse := _fingers_to_pulse s;
          _pulse_dur_ms := _pulse_dur_ms s;
          _pulse_start_ms := _pulse_start_ms s;
          _solenoid_pins := _solenoid_pins s;
          _erm_pins := _erm_pins s;
          trace := trace s ++
                   map (fun i => AnalogWrite (at_index (_erm_pins s) i) v)
                       (filter (fun i => Z.testbit m (Z.of_nat i))
                               (seq 0 ERM_COUNT)) |} /\
  (forall i, (i < ERM_COUNT)%nat -> Z.testbit m (Z.of_nat i) = true ->
             pin_output (trace s') (at_index (_erm_pins s) i) = Some (Pwm v)) /\
  (forall p, (forall i, (i < ERM_COUNT)%nat ->
                        Z.testbit m (Z.of_nat i) = true ->
                        at_index (_erm_pins s) i <> p) ->
             pin_output (trace s') p = pin_output (trace s) p).
Proof.
  intros Hrx m s'.
  assert (Hs' : s' = {| _uart := rest;
          _fingers_to_pulse := _fingers_to_pulse s;
          _pulse_dur_ms := _pulse_dur_ms s;
          _pulse_start_ms := _pulse_start_ms s;
          _solenoid_pins := _solenoid_pins s;
          _erm_pins := _erm_pins s;
          trace := trace s ++
                   map (fun i => AnalogWrite (at_index (_erm_pins s) i) v)
                       (filter (fun i => Z.testbit m (Z.of_nat i))
                               (seq 0 ERM_COUNT)) |}).
  { subst s'. rewrite (handle_erm_set_frame s _ _ _ _ _ _ _ Hrx).
    fold m. rewrite pwm_loop_spec. cbn [set_uart _uart _fingers_to_pulse
      _pulse_dur_ms _pulse_start_ms _solenoid_pins _erm_pins trace].
    f_equal. f_equal. f_equal.
    apply filter_ext_in. intros i Hi. apply in_seq in Hi.
    apply is_set_testbit. unfold ERM_COUNT in Hi. lia. }
  split; [exact Hs'|].
  assert (Hout : forall p,
             pin_output (trace s') p =
             if existsb (fun q => q =? p)
                  (map (fun i => at_index (_erm_pins s) i)
                     (filter (fun i => Z.testbit m (Z.of_nat i))
                        (seq 0 ERM_COUNT)))
             then Some (Pwm v) else pin_output (trace s) p).
  { intros p. rewrite Hs'. cbn [trace]. rewrite pin_output_app.
    rewrite <- drive_pwm. rewrite map_map. reflexivity. }
  split.
  - intros i Hi Hb. rewrite Hout.
    replace (existsb _ _) with true; [reflexivity|].
    symmetry. apply existsb_exists.
    exists (at_index (_erm_pins s) i). split; [|apply Z.eqb_refl].
    apply in_map_iff. exists i. split; [reflexivity|].
    apply filter_In. split; [apply in_seq; lia | exact Hb].
  - intros p Hp. rewrite Hout.
    replace (existsb _ _) with false; [reflexivity|].
    symmetry. apply not_true_is_false. intros Hex.
    apply existsb_exists in Hex. destruct Hex as (q & Hq & Heq).
    apply in_map_iff in Hq. destruct Hq as (i & <- & Hi).
    apply filter_In in Hi. destruct Hi as [Hi Hb]. apply in_seq in Hi.
    apply Z.eqb_eq in Heq. apply (Hp i); [lia | exact Hb | exact Heq].
Qed.

(** Mask 0b1100001 (bits 0, 5 and 6), intensity 0x80: ERM pins 14 and 19. *)
Lemma erm_set_drives_set_bits_witness :
  let s := init (new [x03; x00; x00; x00; x61; x80]
                   [5; 6; 9; 10; 11] [14; 15; 16; 17; 18; 19]) in
  trace (handle_erm_set s) =
    trace s ++ [AnalogWrite 14 x80; AnalogWrite 19 x80].
Proof.
  intros s.
  pose proof (erm_set_drives_set_bits s x03 x00 x00 x00 x61 x80 []
                eq_refl) as H.
  cbv zeta in H. destruct H as (H & _).
  rewrite H. reflexivity.
Defined.

Section Init.

Lemma drive_configure_low (pins : list Z) (p : Z) : forall acc,
  fold_left (drive p) (flat_map configure_low pins) acc =
  if existsb (fun q => q =? p) pins then Some (Level LOW) else acc.
Proof.
  induction pins as [|q pins IH]; intros acc; [reflexivity|].
  cbn [flat_map configure_low app fold_left drive existsb].
  rewrite IH. destruct (q =? p); cbn [orb]; [|reflexivity].
  destruct (existsb _ pins); reflexivity.
Qed.

Lemma solenoid_configure_loop (l : list nat) : forall s,
  fold_left (fun s i =>
               digitalWrite (at_index (_solenoid_pins s) i) LOW
                 (pinMode_OUTPUT (at_index (_solenoid_pins s) i) s)) l s =
  {| _uart := _uart s;
     _fingers_to_pulse := _fingers_to_pulse s;
     _pulse_dur_ms := _pulse_dur_ms s;
     _pulse_start_ms := _pulse_start_ms s;
     _solenoid_pins := _solenoid_pins s;
     _erm_pins := _erm_pins s;
     trace := trace s ++
              flat_map configure_low (map (at_index (_solenoid_pins s)) l) |}.
Proof.
  induction l as [|i l IH]; intros s; cbn [fold_left map flat_map].
  - rewrite app_nil_r. destruct s; reflexivity.
  - rewrite IH. unfold_setters. unfold configure_low.
    rewrite <- !app_assoc. reflexivity.
Qed.

Lemma erm_configure_loop (l : list nat) : forall s,
  fold_left (fun s i =>
               digitalWrite (at_index (_erm_pins s) i) LOW
                 (pinMode_OUTPUT (at_index (_erm_pins s) i) s)) l s =
  {| _uart := _uart s;
     _fingers_to_pulse := _fingers_to_pulse s;
     _pulse_dur_ms := _pulse_dur_ms s;
     _pulse_start_ms := _pulse_start_ms s;
     _solenoid_pins := _solenoid_pins s;
     _erm_pins := _erm_pins s;
     trace := trace s ++
              flat_map configure_low (map (at_index (_erm_pins s)) l) |}.
Proof.
  induction l as [|i l IH]; intros s; cbn [fold_left map flat_map].
  - rewrite app_nil_r. destruct s; reflexivity.
  - rewrite IH. unfold_setters. unfold configure_low.
    rewrite <- !app_assoc. reflexivity.
Qed.

Lemma init_trace s :
  init s =
  {| _uart := _uart s;
     _fingers_to_pulse := _fingers_to_pulse s;
     _pulse_dur_ms := _pulse_dur_ms s;
     _pulse_start_ms := _pulse_start_ms s;
     _solenoid_pins := _solenoid_pins s;
     _erm_pins := _erm_pins s;
     trace := trace s ++
              flat_map configure_low
                (map (at_index (_solenoid_pins s)) (seq 0 SOLENOID_COUNT) ++
                 map (at_index (_erm_pins s)) (seq 0 ERM_COUNT)) |}.
Proof.
  unfold init. rewrite solenoid_configure_loop, erm_configure_loop.
  cbn [_uart _fingers_to_pulse _pulse_dur_ms _pulse_start_ms _solenoid_pins
       _erm_pins trace].
  rewrite flat_map_app, app_assoc. reflexivity.
Qed.

End Init.

(** X5. [init] configures every pin of the solenoid table and then every pin
    of the ERM table as an output and drives it low, in table order, and
    touches nothing else: afterwards each of the eleven pins is low, every
    other pin has the output it had, and FIFO and scheduler fields are
    unchanged. *)
Theorem init_drives_all_pins_low s :
  let s' := init s in
  s' = {| _uart := _uart s;
          _fingers_to_pulse := _fingers_to_pulse s;
          _pulse_dur_ms := _pulse_dur_ms s;
          _pulse_start_ms := _pulse_start_ms s;
          _solenoid_pins := _solenoid_pins s;
          _erm_pins := _erm_pins s;
          trace := trace s ++
                   flat_map configure_low
                     (map (at_index (_solenoid_pins s)) (seq 0 SOLENOID_COUNT) ++
                      map (at_index (_erm_pins s)) (seq 0 ERM_COUNT)) |} /\
  (forall i, (i < SOLENOID_COUNT)%nat ->
             pin_output (trace s') (at_index (_solenoid_pins s) i)
             = Some (Level LOW)) /\
  (forall i, (i < ERM_COUNT)%nat ->
             pin_output (trace s') (at_index (_erm_pins s) i)
             = Some (Level LOW)) /\
  (forall p, (forall i, (i < SOLENOID_COUNT)%nat ->
                        at_index (_solenoid_pins s) i <> p) ->
             (forall i, (i < ERM_COUNT)%nat ->
                        at_index (_erm_pins s) i <> p) ->
             pin_output (trace s') p = pin_output (trace s) p).
Proof.
  intros s'. subst s'. split; [apply init_trace|].
  assert (Hout : forall p,
             pin_output (trace (init s)) p =
             if existsb (fun q => q =? p)
                  (map (at_index (_solenoid_pins s)) (seq 0 SOLENOID_COUNT) ++
                   map (at_index (_erm_pins s)) (seq 0 ERM_COUNT))
             then Some (Level LOW) else pin_output (trace s) p).
  { intros p. rewrite init_trace. cbn [trace].
    rewrite pin_output_app. apply drive_configure_low. }
  split; [|split].
  - intros i Hi. rewrite Hout.
    replace (existsb _ _) with true; [reflexivity|].
    symmetry. apply existsb_exists.
    exists (at_index (_solenoid_pins s) i). split; [|apply Z.eqb_refl].
    apply in_or_app. left. apply in_map. apply in_seq. lia.
  - intros i Hi. rewrite Hout.
    replace (existsb _ _) with true; [reflexivity|].
    symmetry. apply existsb_exists.
    exists (at_index (_erm_pins s) i). split; [|apply Z.eqb_refl].
    apply in_or_app. right. apply in_map. apply in_seq. lia.
  - intros p Hsol Herm. rewrite Hout.
    replace (existsb _ _) with false; [reflexivity|].
    symmetry. apply not_true_is_false. intros Hex.
    apply existsb_exists in Hex. destruct Hex as (q & Hq & Heq).
    apply Z.eqb_eq in Heq. apply in_app_or in Hq.
    destruct Hq as [Hq|Hq]; apply in_map_iff in Hq;
      destruct Hq as (i & <- & Hi); apply in_seq in Hi.
    + apply (Hsol i); [lia | exact Heq].
    + apply (Herm i); [lia | exact Heq].
Qed.

Lemma init_drives_all_pins_low_witness :
  let s := new [] [5; 6; 9; 10; 11] [14; 15; 16; 17; 18; 19] in
  pin_output (trace (init s)) 11 = Some (Level LOW) /\
  pin_output (trace (init s)) 19 = Some (Level LOW) /\
  pin_output (trace (init s)) 12 = None.
Proof.
  intros s.
  destruct (init_drives_all_pins_low s) as (_ & Hsol & Herm & _).
  split; [exact (Hsol 4%nat ltac:(unfold SOLENOID_COUNT; lia))|].
  split; [exact (Herm 5%nat ltac:(unfold ERM_COUNT; lia))|].
  vm_compute. reflexivity.
Defined.

(** X6. A tick takes at most one frame off the FIFO: what [service] leaves
    is a suffix of what it found, and the bytes taken are either none or
    exactly one whole frame, headed by a recognised opcode and as long as
    that opcode announces. *)
Theorem service_takes_at_most_one_frame c s :
  exists taken,
    _uart s = taken ++ _uart (service c s) /\
    (taken = [] \/
     exists b tl, taken = b :: tl /\ frame_width b = Some (length taken)).
Proof.
  destruct (awaiting (_uart s)) eqn:Ha.
  - exists []. split; [|left; reflexivity].
    rewrite (service_awaiting c s Ha), service_gpio_pulse_uart. reflexivity.
  - destruct (_uart s) as [|b rest] eqn:Hrx; [discriminate|].
    cbn [awaiting] in Ha.
    destruct (frame_width b) as [w|] eqn:Hw; [|discriminate].
    apply Nat.ltb_ge in Ha.
    assert (Hw1 : (1 <= w)%nat).
    { unfold frame_width in Hw.
      destruct (byte_val b =? SOLENOID_WRITE);
        [injection Hw as <-; cbn; lia|].
      destruct (byte_val b =? SOLENOID_PULSE);
        [injection Hw as <-; cbn; lia|].
      destruct (byte_val b =? ERM_SET);
        [injection Hw as <-; cbn; lia | discriminate]. }
    exists (firstn w (b :: rest)). split.
    + rewrite (service_dispatch c s b rest Hrx).
      rewrite (handler_of_consumes b w) by
        (try exact Hw; rewrite service_gpio_pulse_uart, Hrx; exact Ha).
      rewrite service_gpio_pulse_uart, Hrx. symmetry. apply firstn_skipn.
    + right. destruct w as [|w']; [lia|].
      exists b, (firstn w' rest). split; [reflexivity|].
      rewrite Hw. f_equal. rewrite length_firstn. lia.
Qed.

(** X7. A WRITE or ERM_SET command never touches the pulse job: whatever
    the FIFO holds behind such an opcode, the tick leaves mask, duration,
    start time and both pin tables as the scheduler step left them, and
    unchanged altogether when no job is live or the hold is not over. *)
Theorem write_and_erm_set_keep_job c s b rest :
  _uart s = b :: rest ->
  byte_val b = SOLENOID_WRITE \/ byte_val b = ERM_SET ->
  device (service c s) =
    device (service_gpio_pulse (at_hold_check c) (at_next_pulse c) s) /\
  (_fingers_to_pulse s = 0 \/
   wrap32 (at_hold_check c - _pulse_start_ms s) < _pulse_dur_ms s ->
   device (service c s) = device s).
Proof.
  intros Hrx Hop.
  assert (Hd : device (service c s) =
               device (service_gpio_pulse (at_hold_check c)
                         (at_next_pulse c) s)).
  { rewrite (service_dispatch c s b rest Hrx). unfold handler_of.
    destruct Hop as [-> | ->]; cbn.
    - apply handle_solenoid_write_device.
    - apply handle_erm_set_device. }
  split; [exact Hd|].
  intros [Hidle|Hhold]; rewrite Hd.
  - rewrite service_gpio_pulse_idle by exact Hidle. reflexivity.
  - rewrite service_gpio_pulse_hold by exact Hhold. reflexivity.
Qed.

(** Actuator 4 is being held (start 0, 50 ms) when a WRITE command is served
    at 10 ms. *)
Lemma write_and_erm_set_keep_job_witness :
  let s := deliver [x01; x00; x00; x00; x05; x01]
             (service (instant 0)
                (init (new pulse_134_50 [5; 6; 9; 10; 11]
                         [14; 15; 16; 17; 18; 19]))) in
  device (service (instant 10) s) = device s.
Proof.
  intros s.
  destruct (write_and_erm_set_keep_job (instant 10) s x01
              [x00; x00; x00; x05; x01] eq_refl (or_introl eq_refl))
    as (_ & H).
  apply H. right. vm_compute. reflexivity.
Defined.

Section ReachableJobs.

Lemma job_valid_mask_bound s : job_valid s -> 0 <= _fingers_to_pulse s < 2 ^ 6.
Proof.
  intros (Hu & Hb & _).
  destruct (Z.eq_dec (_fingers_to_pulse s) 0) as [->|Hnz]; [lia|].
  pose proof (valid_index _ Hu Hnz Hb) as Hv.
  apply invalid_pulse_index_bound in Hv; [|assumption..].
  unfold u32 in Hu. lia.
Qed.

Lemma pulse_step_result_writes now' s :
  u32 (_fingers_to_pulse s) -> _fingers_to_pulse s <> 0 ->
  util.get_highest_bit (_fingers_to_pulse s) < Z.of_nat ERM_COUNT ->
  exists evs,
    trace (pulse_step_result now' s) = trace s ++ evs /\
    Forall (fun e => exists i high,
                (i < ERM_COUNT)%nat /\
                e = DigitalWrite (at_index (_erm_pins s) i) high) evs.
Proof.
  intros Hu Hnz Hb.
  pose proof (get_highest_bit_descends _ Hu Hnz) as Hd.
  assert (H1 : (Z.to_nat (util.get_highest_bit (_fingers_to_pulse s))
                < ERM_COUNT)%nat) by (unfold ERM_COUNT in *; lia).
  assert (H2 : (Z.to_nat
                  (util.get_highest_bit
                     (util.clear_highest_bit (_fingers_to_pulse s)))
                < ERM_COUNT)%nat) by (unfold ERM_COUNT in *; lia).
  unfold pulse_step_result. cbv zeta.
  destruct (util.clear_highest_bit (_fingers_to_pulse s) =? 0); cbn [trace];
    eexists; (split; [reflexivity|]).
  - apply Forall_cons; [|apply Forall_nil].
    eexists; eexists; split; [exact H1 | reflexivity].
  - apply Forall_cons; [|apply Forall_cons; [|apply Forall_nil]].
    + eexists; eexists; split; [exact H1 | reflexivity].
    + eexists; eexists; split; [exact H2 | reflexivity].
Qed.

End ReachableJobs.

(** X8. In every state reachable by construction, [init], deliveries and
    ticks, the remaining mask is below 2^6 (only bits 0..5 are ever
    pending) and the pin tables keep their 5 and 6 entries; hence the
    scheduler's invalid-index branch is dead: a scheduler step there only
    appends digital writes to entries of the ERM table at an index below
    [ERM_COUNT], never the diagnostic line, and when it is due on a live job
    it is exactly the step of the specification. *)
Theorem reachable_mask_in_range s :
  reachable s ->
  0 <= _fingers_to_pulse s < 2 ^ 6 /\
  length (_solenoid_pins s) = SOLENOID_COUNT /\
  length (_erm_pins s) = ERM_COUNT /\
  (forall now now', exists evs,
      trace (service_gpio_pulse now now' s) = trace s ++ evs /\
      Forall (fun e => exists i high,
                  (i < ERM_COUNT)%nat /\
                  e = DigitalWrite (at_index (_erm_pins s) i) high) evs) /\
  (forall now now',
      _fingers_to_pulse s <> 0 ->
      _pulse_dur_ms s <= wrap32 (now - _pulse_start_ms s) ->
      service_gpio_pulse now now' s = pulse_step_result now' s).
Proof.
  intros Hr. pose proof (reachable_job_valid s Hr) as Hv.
  pose proof Hv as (Hu & Hb & He & Hs).
  split; [apply job_valid_mask_bound; exact Hv|].
  split; [exact Hs|]. split; [exact He|]. split.
  - intros now now'.
    destruct (Z.eq_dec (_fingers_to_pulse s) 0) as [Hz|Hnz].
    { rewrite service_gpio_pulse_idle by exact Hz.
      exists []. split; [symmetry; apply app_nil_r | constructor]. }
    destruct (Z_lt_le_dec (wrap32 (now - _pulse_start_ms s)) (_pulse_dur_ms s))
      as [Hhold|Hdue].
    { rewrite service_gpio_pulse_hold by exact Hhold.
      exists []. split; [symmetry; apply app_nil_r | constructor]. }
    rewrite service_gpio_pulse_due by assumption.
    apply pulse_step_result_writes; assumption.
  - intros now now' Hnz Hdue. apply service_gpio_pulse_due; assumption.
Qed.

Lemma reachable_mask_in_range_witness :
  let s := service (instant 0)
             (init (new [x02; xff; xff; xff; x3f; x00; x00; x00; x32]
                      [5; 6; 9; 10; 11] [14; 15; 16; 17; 18; 19])) in
  0 <= _fingers_to_pulse s < 2 ^ 6.
Proof.
  intros s.
  apply (reachable_mask_in_range s).
  apply reach_service, reach_init, reach_new; reflexivity.
Defined.

Section DrainOrder.

Lemma drain_head k m :
  fst (drain (S k) m) = util.get_highest_bit m ::
                        fst (drain k (util.clear_highest_bit m)).
Proof. reflexivity. Qed.

Lemma run_scheduler_drains ds : forall s,
  u32 (_fingers_to_pulse s) ->
  util.get_highest_bit (_fingers_to_pulse s) < Z.of_nat ERM_COUNT ->
  _fingers_to_pulse s <> 0 ->
  length ds = popcount (_fingers_to_pulse s) ->
  all_due ds s ->
  run_scheduler ds s =
  {| _uart := _uart s;
     _fingers_to_pulse := 0;
     _pulse_dur_ms := _pulse_dur_ms s;
     _pulse_start_ms := 0;
     _solenoid_pins := _solenoid_pins s;
     _erm_pins := _erm_pins s;
     trace := trace s ++
              hold_ends (_erm_pins s)
                (fst (drain (popcount (_fingers_to_pulse s))
                        (_fingers_to_pulse s))) |}.
Proof.
  induction ds as [|d ds IH]; intros s Hu Hb Hnz Hlen Hdue.
  { cbn [length] in Hlen. symmetry in Hlen.
    apply popcount_zero_iff in Hlen; [contradiction | exact Hu]. }
  cbn [all_due] in Hdue. destruct Hdue as [Hd Hrest].
  cbn [run_scheduler fold_left].
  fold (run_scheduler ds
          (service_gpio_pulse (at_hold_check (snd d)) (at_next_pulse (snd d)) s)).
  pose proof (popcount_clear_highest_bit _ Hu Hnz) as Hpc.
  rewrite Hpc, drain_head.
  rewrite service_gpio_pulse_due in * by assumption.
  unfold pulse_step_result in *. cbv zeta in *.
  destruct (Z.eqb_spec (util.clear_highest_bit (_fingers_to_pulse s)) 0)
    as [Hz|Hnz'].
  - assert (Hds : ds = []).
    { rewrite Hpc, Hz in Hlen. cbn in Hlen.
      destruct ds; [reflexivity | discriminate]. }
    subst ds. rewrite Hz. reflexivity.
  - rewrite IH; cbn [_fingers_to_pulse _uart _pulse_dur_ms _pulse_start_ms
                       _solenoid_pins _erm_pins trace].
    + f_equal. rewrite <- app_assoc. f_equal.
      destruct (popcount (util.clear_highest_bit (_fingers_to_pulse s)))
        as [|k] eqn:Hk.
      { apply popcount_zero_iff in Hk;
          [contradiction | apply clear_highest_bit_u32; exact Hu]. }
      rewrite drain_head. reflexivity.
    + apply clear_highest_bit_u32; exact Hu.
    + pose proof (get_highest_bit_descends _ Hu Hnz). lia.
    + exact Hnz'.
    + rewrite Hpc in Hlen. cbn [length] in Hlen. lia.
    + exact Hrest.
Qed.

End DrainOrder.

(** X9. The scheduler serves a job in the order [get_highest_bit] /
    [clear_highest_bit] drain its mask: from a reachable state with a live
    job of mask [m], [popcount m] ticks that each find the current hold over
    leave the scheduler idle with the start time reset, having driven low
    each index of the drain sequence in turn and, between two of them, the
    next one high; nothing else is written. *)
Theorem scheduler_serves_in_drain_order ds s :
  reachable s ->
  _fingers_to_pulse s <> 0 ->
  length ds = popcount (_fingers_to_pulse s) ->
  all_due ds s ->
  run_scheduler ds s =
  {| _uart := _uart s;
     _fingers_to_pulse := 0;
     _pulse_dur_ms := _pulse_dur_ms s;
     _pulse_start_ms := 0;
     _solenoid_pins := _solenoid_pins s;
     _erm_pins := _erm_pins s;
     trace := trace s ++
              hold_ends (_erm_pins s)
                (fst (drain (popcount (_fingers_to_pulse s))
                        (_fingers_to_pulse s))) |}.
Proof.
  intros Hr Hnz Hlen Hdue.
  destruct (reachable_job_valid s Hr) as (Hu & Hb & _).
  apply run_scheduler_drains; assumption.
Qed.

(** Mask {1,3,4}, 50 ms, started at 0; ticks at 50, 100 and 150 ms. *)
Lemma scheduler_serves_in_drain_order_witness :
  let s := service (instant 0)
             (init (new pulse_134_50 [5; 6; 9; 10; 11]
                      [14; 15; 16; 17; 18; 19])) in
  let ds := [([], instant 50); ([], instant 100); ([], instant 150)] in
  _fingers_to_pulse (run_scheduler ds s) = 0 /\
  trace (run_scheduler ds s) =
    trace s ++ [DigitalWrite 18 LOW; DigitalWrite 17 HIGH;
                DigitalWrite 17 LOW; DigitalWrite 15 HIGH;
                DigitalWrite 15 LOW].
Proof.
  intros s ds.
  assert (Hr : reachable s).
  { apply reach_service, reach_init, reach_new; reflexivity. }
  assert (Hnz : _fingers_to_pulse s <> 0) by (vm_compute; discriminate).
  assert (Hlen : length ds = popcount (_fingers_to_pulse s))
    by (vm_compute; reflexivity).
  assert (Hdue : all_due ds s).
  { cbn [all_due ds]. repeat split; vm_compute; discriminate. }
  rewrite (scheduler_serves_in_drain_order ds s Hr Hnz Hlen Hdue).
  split; [reflexivity | vm_compute; reflexivity].
Defined.

Section HandlerEvents.

(** What the pulse handler may add to the trace: nothing, the invalid-index
    line, or one pin driven high. *)
Lemma handle_solenoid_pulse_adds now s :
  trace (handle_solenoid_pulse now s) = trace s \/
  trace (handle_solenoid_pulse now s) =
    trace s ++ [SerialPrintln "!!! Invalid values in pulse"%string] \/
  exists pin, trace (handle_solenoid_pulse now s) =
              trace s ++ [DigitalWrite pin HIGH].
Proof.
  unfold handle_solenoid_pulse.
  destruct (_ <? _)%nat eqn:Hlen; [left; reflexivity|].
  unfold parse_bytes. rewrite Hlen. cbn.
  destruct (util.byte_swap32 _ =? 0); cbn; [left; reflexivity|].
  destruct (invalid_pulse_index _); cbn.
  - right. left. reflexivity.
  - right. right. eexists. reflexivity.
Qed.

Lemma service_gpio_pulse_adds now now' s :
  exists evs,
    trace (service_gpio_pulse now now' s) = trace s ++ evs /\
    ~ In parse_diagnostic evs.
Proof.
  unfold service_gpio_pulse, parse_diagnostic.
  destruct (_fingers_to_pulse s =? 0);
    [exists []; split; [symmetry; apply app_nil_r | intros []]|].
  destruct (wrap32 _ <? _);
    [exists []; split; [symmetry; apply app_nil_r | intros []]|].
  destruct (invalid_pulse_index (util.get_highest_bit (_fingers_to_pulse s)));
    cbn.
  { eexists; split; [reflexivity|]. intros [H|[]]. discriminate H. }
  destruct (util.clear_highest_bit (_fingers_to_pulse s) =? 0); cbn.
  { eexists; split; [reflexivity|]. intros [H|[]]. discriminate H. }
  destruct (invalid_pulse_index
              (util.get_highest_bit
                 (util.clear_highest_bit (_fingers_to_pulse s))));
    cbn; rewrite <- app_assoc; cbn.
  - eexists; split; [reflexivity|]. intros [H|[H|[]]]; discriminate H.
  - eexists; split; [reflexivity|]. intros [H|[H|[]]]; discriminate H.
Qed.

Lemma handle_solenoid_write_adds s :
  exists evs,
    trace (handle_solenoid_write s) = trace s ++ evs /\
    Forall (fun e => exists pin high, e = DigitalWrite pin high) evs.
Proof.
  unfold handle_solenoid_write.
  destruct (_ <? _)%nat eqn:Hlen;
    [exists []; split; [symmetry; apply app_nil_r | constructor]|].
  unfold parse_bytes. rewrite Hlen. cbn [read]. cbv zeta.
  rewrite write_loop_spec. cbn [trace set_uart].
  eexists. split; [reflexivity|].
  apply Forall_forall. intros e He. apply in_map_iff in He.
  destruct He as (i & <- & _). eexists. eexists. reflexivity.
Qed.

Lemma handle_erm_set_adds s :
  exists evs,
    trace (handle_erm_set s) = trace s ++ evs /\
    Forall (fun e => exists pin v, e = AnalogWrite pin v) evs.
Proof.
  unfold handle_erm_set.
  destruct (_ <? _)%nat eqn:Hlen;
    [exists []; split; [symmetry; apply app_nil_r | constructor]|].
  unfold parse_bytes. rewrite Hlen. cbn [read]. cbv zeta.
  rewrite pwm_loop_spec. cbn [trace set_uart].
  eexists. split; [reflexivity|].
  apply Forall_forall. intros e He. apply in_map_iff in He.
  destruct He as (i & <- & _). eexists. eexists. reflexivity.
Qed.

Lemma handler_of_adds b now s :
  exists evs,
    trace (handler_of b now s) = trace s ++ evs /\
    ~ In parse_diagnostic evs.
Proof.
  unfold handler_of.
  destruct (byte_val b =? SOLENOID_WRITE).
  { destruct (handle_solenoid_write_adds s) as (evs & Ht & Hall).
    exists evs. split; [exact Ht|]. intros Hin.
    rewrite Forall_forall in Hall. destruct (Hall _ Hin) as (p & v & H).
    discriminate H. }
  destruct (byte_val b =? SOLENOID_PULSE).
  { destruct (handle_solenoid_pulse_adds now s) as [Ht|[Ht|[pin Ht]]].
    - exists []. split; [rewrite app_nil_r; exact Ht | intros []].
    - eexists. split; [exact Ht|]. intros [H|[]]. discriminate H.
    - eexists. split; [exact Ht|]. intros [H|[]]. discriminate H. }
  destruct (byte_val b =? ERM_SET).
  { destruct (handle_erm_set_adds s) as (evs & Ht & Hall).
    exists evs. split; [exact Ht|]. intros Hin.
    rewrite Forall_forall in Hall. destruct (Hall _ Hin) as (p & v & H).
    discriminate H. }
  exists []. split; [symmetry; apply app_nil_r | intros []].
Qed.

End HandlerEvents.

(** X10. No pulse command ever switches a pin off: whatever the FIFO holds,
    a pin that is high before [handle_solenoid_pulse] is high after it. In
    particular the actuator a replaced or cancelled job was holding stays
    on. *)
Theorem pulse_command_keeps_high_pins now s p :
  pin_output (trace s) p = Some (Level HIGH) ->
  pin_output (trace (handle_solenoid_pulse now s)) p = Some (Level HIGH).
Proof.
  intros Hp.
  destruct (handle_solenoid_pulse_adds now s) as [Ht|[Ht|[pin Ht]]];
    rewrite Ht; [exact Hp| |]; rewrite pin_output_app, Hp; cbn.
  - reflexivity.
  - destruct (pin =? p); reflexivity.
Qed.

(** Actuator 4 (pin 18) is being held when a command for mask {0,2}
    replaces the job. *)
Lemma pulse_command_keeps_high_pins_witness :
  let s := deliver [x02; x00; x00; x00; x05; x00; x00; x00; x14]
             (service (instant 0)
                (init (new pulse_134_50 [5; 6; 9; 10; 11]
                         [14; 15; 16; 17; 18; 19]))) in
  pin_output (trace (handle_solenoid_pulse 7 s)) 18 = Some (Level HIGH) /\
  _fingers_to_pulse (handle_solenoid_pulse 7 s) = 5.
Proof.
  intros s. split.
  - apply (pulse_command_keeps_high_pins 7 s 18). vm_compute. reflexivity.
  - vm_compute. reflexivity.
Defined.

(** X11. The guard inside [parse_bytes] never fires under [service]: no
    tick, in any state, prints its diagnostic line, because every handler
    checks the frame width before it parses; what a tick adds to the trace
    comes after what was there. *)
Theorem service_never_parses_short c s :
  exists evs,
    trace (service c s) = trace s ++ evs /\
    ~ In parse_diagnostic evs.
Proof.
  destruct (service_gpio_pulse_adds (at_hold_check c) (at_next_pulse c) s)
    as (evs1 & Ht1 & Hq1).
  destruct (_uart s) as [|b rest] eqn:Hrx.
  - rewrite (service_empty c s Hrx). exists evs1. split; assumption.
  - rewrite (service_dispatch c s b rest Hrx).
    destruct (handler_of_adds b (at_trigger c)
                (service_gpio_pulse (at_hold_check c) (at_next_pulse c) s))
      as (evs2 & Ht2 & Hq2).
    exists (evs1 ++ evs2). split.
    + rewrite Ht2, Ht1, app_assoc. reflexivity.
    + intros Hin. apply in_app_or in Hin. tauto.
Qed.

(** ** Properties of bleuart_pin_ctrl.cpp *)

Arguments BleUartPinCtrl.byte_swap32 : simpl never.
Arguments BleUartPinCtrl.is_set : simpl never.

Section PinCtrl.

Lemma pin_ctrl_byte_swap32 x : BleUartPinCtrl.byte_swap32 x = util.byte_swap32 x.
Proof. reflexivity. Qed.

Lemma pin_ctrl_is_set m n : BleUartPinCtrl.is_set m n = util.is_set m n.
Proof. reflexivity. Qed.

(** A loop that emits one event for each index passing a test. *)
Lemma pin_ctrl_loop (c : nat -> bool) (ev : nat -> BleUartPinCtrl.event)
  (l : list nat) : forall s,
  fold_left (fun s pin => if c pin then BleUartPinCtrl.emit (ev pin) s else s)
            l s =
  {| BleUartPinCtrl.uart := BleUartPinCtrl.uart s;
     BleUartPinCtrl.trace :=
       BleUartPinCtrl.trace s ++ map ev (filter c l) |}.
Proof.
  induction l as [|i l IH]; intros s; cbn [fold_left filter map].
  - rewrite app_nil_r. destruct s; reflexivity.
  - rewrite IH. destruct (c i); cbn; [|reflexivity].
    rewrite <- app_assoc. reflexivity.
Qed.

Lemma pin_ctrl_set_bits (m : Z) :
  u32 m ->
  filter (fun i => BleUartPinCtrl.is_set m (Z.of_nat i)) (seq 0 32) =
  filter (fun i => Z.testbit m (Z.of_nat i)) (seq 0 32).
Proof.
  intros Hm. apply filter_ext_in. intros i Hi. apply in_seq in Hi.
  rewrite pin_ctrl_is_set. apply is_set_testbit. lia.
Qed.

Lemma pin_ctrl_dispatch s b rest :
  BleUartPinCtrl.uart s = b :: rest ->
  BleUartPinCtrl.service s =
  if byte_val b =? BleUartPinCtrl.GPIO_CONFIGURE
  then BleUartPinCtrl.handle_gpio_configure s
  else if byte_val b =? BleUartPinCtrl.GPIO_SET
  then BleUartPinCtrl.handle_gpio_write true s
  else if byte_val b =? BleUartPinCtrl.GPIO_CLEAR
  then BleUartPinCtrl.handle_gpio_write false s
  else if byte_val b =? BleUartPinCtrl.GPIO_QUERY
  then BleUartPinCtrl.handle_gpio_query s
  else if byte_val b =? BleUartPinCtrl.PWM_SET
  then BleUartPinCtrl.handle_pwm_set s
  else if byte_val b =? BleUartPinCtrl.QUERY_STATE
  then BleUartPinCtrl.handle_query_state s
  else s.
Proof.
  intros Hrx. unfold BleUartPinCtrl.service, BleUartPinCtrl.peek.
  rewrite Hrx. rewrite Z.mod_small by apply byte_val_range.
  cbn [length]. destruct (Z.leb_spec (Z.of_nat (S (length rest))) 0); [lia|].
  reflexivity.
Qed.

Lemma pin_ctrl_gpio_write_frame high s op p0 p1 p2 p3 m0 m1 m2 m3 rest :
  BleUartPinCtrl.uart s =
    op :: p0 :: p1 :: p2 :: p3 :: m0 :: m1 :: m2 :: m3 :: rest ->
  BleUartPinCtrl.handle_gpio_write high s =
  {| BleUartPinCtrl.uart := rest;
     BleUartPinCtrl.trace :=
       BleUartPinCtrl.trace s ++
       [BleUartPinCtrl.SerialPrint (BleUartPinCtrl.Text "GPIO_SET: ");
        BleUartPinCtrl.SerialPrintln
          (BleUartPinCtrl.Hex (be32 m0 m1 m2 m3))] ++
       map (fun i => BleUartPinCtrl.DigitalWrite (Z.of_nat i) high)
           (filter (fun i => Z.testbit (be32 m0 m1 m2 m3) (Z.of_nat i))
                   (seq 0 32)) |}.
Proof.
  intros Hrx.
  unfold BleUartPinCtrl.handle_gpio_write, BleUartPinCtrl.parse_bytes.
  rewrite Hrx.
  cbn [length Nat.ltb Nat.leb sizeof BleUartPinCtrl.Packed_GpioSet firstn skipn
       memcpy_from BleUartPinCtrl.gs_gpio_bitset nth].
  cbv zeta.
  rewrite (pin_ctrl_loop
             (fun i => BleUartPinCtrl.is_set
                         (BleUartPinCtrl.byte_swap32 (le32 m0 m1 m2 m3))
                         (Z.of_nat i))
             (fun i => BleUartPinCtrl.DigitalWrite (Z.of_nat i) high)).
  rewrite pin_ctrl_byte_swap32.
  change (util.byte_swap32 (le32 m0 m1 m2 m3)) with (decode32 m0 m1 m2 m3).
  rewrite pin_ctrl_set_bits by apply decode32_u32.
  rewrite decode32_be32.
  cbn [BleUartPinCtrl.emit BleUartPinCtrl.uart BleUartPinCtrl.trace].
  rewrite <- !app_assoc. cbn [app]. reflexivity.
Qed.

End PinCtrl.

Section PinCtrlFrames.

Lemma pin_ctrl_pwm_set_frame s op p0 p1 p2 p3 m0 m1 m2 m3 v rest :
  BleUartPinCtrl.uart s =
    op :: p0 :: p1 :: p2 :: p3 :: m0 :: m1 :: m2 :: m3 :: v :: rest ->
  BleUartPinCtrl.handle_pwm_set s =
  {| BleUartPinCtrl.uart := rest;
     BleUartPinCtrl.trace :=
       BleUartPinCtrl.trace s ++
       [BleUartPinCtrl.SerialPrint (BleUartPinCtrl.Text "PWM_SET: ");
        BleUartPinCtrl.SerialPrint (BleUartPinCtrl.Hex (be32 m0 m1 m2 m3));
        BleUartPinCtrl.SerialPrint (BleUartPinCtrl.Text " ");
        BleUartPinCtrl.SerialPrintln (BleUartPinCtrl.Dec (byte_val v))] ++
       map (fun i => BleUartPinCtrl.AnalogWrite (Z.of_nat i) v)
           (filter (fun i => Z.testbit (be32 m0 m1 m2 m3) (Z.of_nat i))
                   (seq 0 32)) |}.
Proof.
  intros Hrx.
  unfold BleUartPinCtrl.handle_pwm_set, BleUartPinCtrl.parse_bytes.
  rewrite Hrx.
  cbn [length Nat.ltb Nat.leb sizeof BleUartPinCtrl.Packed_PwmSet firstn skipn
       memcpy_from BleUartPinCtrl.ps_gpio_bitset BleUartPinCtrl.ps_intensity
       nth].
  cbv zeta.
  rewrite (pin_ctrl_loop
             (fun i => BleUartPinCtrl.is_set
                         (BleUartPinCtrl.byte_swap32 (le32 m0 m1 m2 m3))
                         (Z.of_nat i))
             (fun i => BleUartPinCtrl.AnalogWrite (Z.of_nat i) v)).
  rewrite pin_ctrl_byte_swap32.
  change (util.byte_swap32 (le32 m0 m1 m2 m3)) with (decode32 m0 m1 m2 m3).
  rewrite pin_ctrl_set_bits by apply decode32_u32.
  rewrite decode32_be32.
  cbn [BleUartPinCtrl.emit BleUartPinCtrl.uart BleUartPinCtrl.trace].
  rewrite <- !app_assoc. cbn [app]. reflexivity.
Qed.

Lemma pin_ctrl_gpio_configure_frame s op p0 p1 p2 p3 m0 m1 m2 m3 d rest :
  BleUartPinCtrl.uart s =
    op :: p0 :: p1 :: p2 :: p3 :: m0 :: m1 :: m2 :: m3 :: d :: rest ->
  BleUartPinCtrl.handle_gpio_configure s =
  {| BleUartPinCtrl.uart := rest;
     BleUartPinCtrl.trace :=
       BleUartPinCtrl.trace s ++
       [BleUartPinCtrl.SerialPrint (BleUartPinCtrl.Text "GPIO_CONFIGURE: ");
        BleUartPinCtrl.SerialPrint (BleUartPinCtrl.Hex (be32 m0 m1 m2 m3));
        BleUartPinCtrl.SerialPrint (BleUartPinCtrl.Text " ");
        BleUartPinCtrl.SerialPrintln (BleUartPinCtrl.Dec (byte_val d))] ++
       map (fun i => BleUartPinCtrl.PinMode (Z.of_nat i)
                       (negb (byte_val d =? 0)))
           (filter (fun i => Z.testbit (be32 m0 m1 m2 m3) (Z.of_nat i))
                   (seq 0 32)) |}.
Proof.
  intros Hrx.
  unfold BleUartPinCtrl.handle_gpio_configure, BleUartPinCtrl.parse_bytes.
  rewrite Hrx.
  cbn [length Nat.ltb Nat.leb sizeof BleUartPinCtrl.Packed_GpioConfigure
       firstn skipn memcpy_from BleUartPinCtrl.gc_gpio_bitset
       BleUartPinCtrl.gc_gpio_direction nth].
  cbv zeta.
  destruct (byte_val d =? 0); cbv iota; cbn [negb];
    fold BleUartPinCtrl.INPUT BleUartPinCtrl.OUTPUT.
  - rewrite (pin_ctrl_loop
               (fun i => BleUartPinCtrl.is_set
                           (BleUartPinCtrl.byte_swap32 (le32 m0 m1 m2 m3))
                           (Z.of_nat i))
               (fun i => BleUartPinCtrl.PinMode (Z.of_nat i)
                           BleUartPinCtrl.INPUT)).
    rewrite pin_ctrl_byte_swap32.
    change (util.byte_swap32 (le32 m0 m1 m2 m3)) with (decode32 m0 m1 m2 m3).
    rewrite pin_ctrl_set_bits by apply decode32_u32.
    rewrite decode32_be32.
    cbn [BleUartPinCtrl.emit BleUartPinCtrl.uart BleUartPinCtrl.trace].
    rewrite <- !app_assoc. cbn [app]. reflexivity.
  - rewrite (pin_ctrl_loop
               (fun i => BleUartPinCtrl.is_set
                           (BleUartPinCtrl.byte_swap32 (le32 m0 m1 m2 m3))
                           (Z.of_nat i))
               (fun i => BleUartPinCtrl.PinMode (Z.of_nat i)
                           BleUartPinCtrl.OUTPUT)).
    rewrite pin_ctrl_byte_swap32.
    change (util.byte_swap32 (le32 m0 m1 m2 m3)) with (decode32 m0 m1 m2 m3).
    rewrite pin_ctrl_set_bits by apply decode32_u32.
    rewrite decode32_be32.
    cbn [BleUartPinCtrl.emit BleUartPinCtrl.uart BleUartPinCtrl.trace].
    rewrite <- !app_assoc. cbn [app]. reflexivity.
Qed.

End PinCtrlFrames.

(** X12. Pin control, GPIO_SET and GPIO_CLEAR: a tick that finds a whole
    9-byte frame takes it off the FIFO, prints the decoded mask (under the
    label GPIO_SET for both opcodes) and writes HIGH for GPIO_SET, LOW for
    GPIO_CLEAR, to exactly the pins 0..31 whose bit is set in the big-endian
    mask, in ascending order; the four port bytes have no influence. *)
Theorem pin_ctrl_gpio_set_clear s op p0 p1 p2 p3 m0 m1 m2 m3 rest :
  BleUartPinCtrl.uart s =
    op :: p0 :: p1 :: p2 :: p3 :: m0 :: m1 :: m2 :: m3 :: rest ->
  byte_val op = BleUartPinCtrl.GPIO_SET \/
  byte_val op = BleUartPinCtrl.GPIO_CLEAR ->
  BleUartPinCtrl.service s =
  {| BleUartPinCtrl.uart := rest;
     BleUartPinCtrl.trace :=
       BleUartPinCtrl.trace s ++
       [BleUartPinCtrl.SerialPrint (BleUartPinCtrl.Text "GPIO_SET: ");
        BleUartPinCtrl.SerialPrintln
          (BleUartPinCtrl.Hex (be32 m0 m1 m2 m3))] ++
       map (fun i => BleUartPinCtrl.DigitalWrite (Z.of_nat i)
                       (byte_val op =? BleUartPinCtrl.GPIO_SET))
           (filter (fun i => Z.testbit (be32 m0 m1 m2 m3) (Z.of_nat i))
                   (seq 0 32)) |}.
Proof.
  intros Hrx Hop. rewrite (pin_ctrl_dispatch s _ _ Hrx).
  destruct Hop as [-> | ->]; cbn [Z.eqb Pos.eqb BleUartPinCtrl.GPIO_SET
    BleUartPinCtrl.GPIO_CLEAR BleUartPinCtrl.GPIO_CONFIGURE];
    apply (pin_ctrl_gpio_write_frame _ s op p0 p1 p2 p3); exact Hrx.
Qed.

(** GPIO_CLEAR for mask 0x80000005 on any port: pins 0, 2 and 31 go low. *)
Lemma pin_ctrl_gpio_set_clear_witness :
  let s := {| BleUartPinCtrl.uart :=
                [x03; xde; xad; xbe; xef; x80; x00; x00; x05; x02];
              BleUartPinCtrl.trace := [] |} in
  BleUartPinCtrl.service s =
  {| BleUartPinCtrl.uart := [x02];
     BleUartPinCtrl.trace :=
       [BleUartPinCtrl.SerialPrint (BleUartPinCtrl.Text "GPIO_SET: ");
        BleUartPinCtrl.SerialPrintln (BleUartPinCtrl.Hex 0x80000005);
        BleUartPinCtrl.DigitalWrite 0 false;
        BleUartPinCtrl.DigitalWrite 2 false;
        BleUartPinCtrl.DigitalWrite 31 false] |}.
Proof.
  intros s.
  rewrite (pin_ctrl_gpio_set_clear s x03 xde xad xbe xef x80 x00 x00 x05
             [x02] eq_refl (or_intror eq_refl)).
  vm_compute. reflexivity.
Defined.

(** X13. Pin control, PWM_SET: a tick that finds a whole 10-byte frame
    takes it off the FIFO, prints mask and intensity and sets the intensity
    byte as PWM duty on exactly the pins 0..31 whose bit is set in the
    big-endian mask, in ascending order; the port bytes have no influence. *)
Theorem pin_ctrl_pwm_set s op p0 p1 p2 p3 m0 m1 m2 m3 v rest :
  BleUartPinCtrl.uart s =
    op :: p0 :: p1 :: p2 :: p3 :: m0 :: m1 :: m2 :: m3 :: v :: rest ->
  byte_val op = BleUartPinCtrl.PWM_SET ->
  BleUartPinCtrl.service s =
  {| BleUartPinCtrl.uart := rest;
     BleUartPinCtrl.trace :=
       BleUartPinCtrl.trace s ++
       [BleUartPinCtrl.SerialPrint (BleUartPinCtrl.Text "PWM_SET: ");
        BleUartPinCtrl.SerialPrint (BleUartPinCtrl.Hex (be32 m0 m1 m2 m3));
        BleUartPinCtrl.SerialPrint (BleUartPinCtrl.Text " ");
        BleUartPinCtrl.SerialPrintln (BleUartPinCtrl.Dec (byte_val v))] ++
       map (fun i => BleUartPinCtrl.AnalogWrite (Z.of_nat i) v)
           (filter (fun i => Z.testbit (be32 m0 m1 m2 m3) (Z.of_nat i))
                   (seq 0 32)) |}.
Proof.
  intros Hrx Hop. rewrite (pin_ctrl_dispatch s _ _ Hrx), Hop.
  cbn [Z.eqb Pos.eqb BleUartPinCtrl.GPIO_SET BleUartPinCtrl.GPIO_CLEAR
       BleUartPinCtrl.GPIO_CONFIGURE BleUartPinCtrl.GPIO_QUERY
       BleUartPinCtrl.PWM_SET].
  apply (pin_ctrl_pwm_set_frame s op p0 p1 p2 p3); exact Hrx.
Qed.

Lemma pin_ctrl_pwm_set_witness :
  let s := {| BleUartPinCtrl.uart :=
                [x05; x00; x00; x00; x00; x00; x00; x01; x02; x7f];
              BleUartPinCtrl.trace := [] |} in
  BleUartPinCtrl.service s =
  {| BleUartPinCtrl.uart := [];
     BleUartPinCtrl.trace :=
       [BleUartPinCtrl.SerialPrint (BleUartPinCtrl.Text "PWM_SET: ");
        BleUartPinCtrl.SerialPrint (BleUartPinCtrl.Hex 0x102);
        BleUartPinCtrl.SerialPrint (BleUartPinCtrl.Text " ");
        BleUartPinCtrl.SerialPrintln (BleUartPinCtrl.Dec 127);
        BleUartPinCtrl.AnalogWrite 1 x7f;
        BleUartPinCtrl.AnalogWrite 8 x7f] |}.
Proof.
  intros s.
  rewrite (pin_ctrl_pwm_set s x05 x00 x00 x00 x00 x00 x00 x01 x02 x7f
             [] eq_refl eq_refl).
  vm_compute. reflexivity.
Defined.

(** X14. Pin control, GPIO_CONFIGURE: a tick that finds a whole 10-byte
    frame takes it off the FIFO, prints mask and direction and configures
    exactly the pins 0..31 whose bit is set in the big-endian mask, in
    ascending order: as inputs when the direction byte is 0, as outputs for
    every other value of that byte. *)
Theorem pin_ctrl_gpio_configure s op p0 p1 p2 p3 m0 m1 m2 m3 d rest :
  BleUartPinCtrl.uart s =
    op :: p0 :: p1 :: p2 :: p3 :: m0 :: m1 :: m2 :: m3 :: d :: rest ->
  byte_val op = BleUartPinCtrl.GPIO_CONFIGURE ->
  BleUartPinCtrl.service s =
  {| BleUartPinCtrl.uart := rest;
     BleUartPinCtrl.trace :=
       BleUartPinCtrl.trace s ++
       [BleUartPinCtrl.SerialPrint (BleUartPinCtrl.Text "GPIO_CONFIGURE: ");
        BleUartPinCtrl.SerialPrint (BleUartPinCtrl.Hex (be32 m0 m1 m2 m3));
        BleUartPinCtrl.SerialPrint (BleUartPinCtrl.Text " ");
        BleUartPinCtrl.SerialPrintln (BleUartPinCtrl.Dec (byte_val d))] ++
       map (fun i => BleUartPinCtrl.PinMode (Z.of_nat i)
                       (negb (byte_val d =? 0)))
           (filter (fun i => Z.testbit (be32 m0 m1 m2 m3) (Z.of_nat i))
                   (seq 0 32)) |}.
Proof.
  intros Hrx Hop. rewrite (pin_ctrl_dispatch s _ _ Hrx), Hop.
  cbn [Z.eqb Pos.eqb BleUartPinCtrl.GPIO_CONFIGURE].
  apply (pin_ctrl_gpio_configure_frame s op p0 p1 p2 p3); exact Hrx.
Qed.

(** Direction byte 7 configures pins 4 and 5 as outputs. *)
Lemma pin_ctrl_gpio_configure_witness :
  let s := {| BleUartPinCtrl.uart :=
                [x01; x00; x00; x00; x00; x00; x00; x00; x30; x07];
              BleUartPinCtrl.trace := [] |} in
  BleUartPinCtrl.service s =
  {| BleUartPinCtrl.uart := [];
     BleUartPinCtrl.trace :=
       [BleUartPinCtrl.SerialPrint (BleUartPinCtrl.Text "GPIO_CONFIGURE: ");
        BleUartPinCtrl.SerialPrint (BleUartPinCtrl.Hex 0x30);
        BleUartPinCtrl.SerialPrint (BleUartPinCtrl.Text " ");
        BleUartPinCtrl.SerialPrintln (BleUartPinCtrl.Dec 7);
        BleUartPinCtrl.PinMode 4 BleUartPinCtrl.OUTPUT;
        BleUartPinCtrl.PinMode 5 BleUartPinCtrl.OUTPUT] |}.
Proof.
  intros s.
  rewrite (pin_ctrl_gpio_configure s x01 x00 x00 x00 x00 x00 x00 x00 x30 x07
             [] eq_refl eq_refl).
  vm_compute. reflexivity.
Defined.

Section PinCtrlDispatch.

Lemma pin_ctrl_query_tick s b rest msg :
  BleUartPinCtrl.uart s = b :: rest ->
  pin_ctrl_query b = Some msg ->
  BleUartPinCtrl.service s =
  BleUartPinCtrl.emit
    (BleUartPinCtrl.SerialPrintln (BleUartPinCtrl.Text msg)) s.
Proof.
  intros Hrx Hq. rewrite (pin_ctrl_dispatch s b rest Hrx).
  unfold pin_ctrl_query in Hq.
  destruct (Z.eqb_spec (byte_val b) BleUartPinCtrl.GPIO_QUERY) as [E|_].
  { injection Hq as <-. rewrite E. reflexivity. }
  destruct (Z.eqb_spec (byte_val b) BleUartPinCtrl.QUERY_STATE) as [E|_];
    [|discriminate].
  injection Hq as <-. rewrite E. reflexivity.
Qed.

Lemma pin_ctrl_service_awaiting s :
  pin_ctrl_awaiting (BleUartPinCtrl.uart s) = true ->
  BleUartPinCtrl.service s = s.
Proof.
  intros Ha. destruct (BleUartPinCtrl.uart s) as [|b rest] eqn:Hrx.
  { unfold BleUartPinCtrl.service. rewrite Hrx. reflexivity. }
  rewrite (pin_ctrl_dispatch s b rest Hrx).
  unfold pin_ctrl_awaiting, pin_ctrl_width, pin_ctrl_query in Ha.
  destruct (byte_val b =? BleUartPinCtrl.GPIO_CONFIGURE) eqn:E1.
  { unfold BleUartPinCtrl.handle_gpio_configure. rewrite Hrx, Ha. reflexivity. }
  destruct (byte_val b =? BleUartPinCtrl.GPIO_SET) eqn:E2.
  { unfold BleUartPinCtrl.handle_gpio_write. rewrite Hrx, Ha. reflexivity. }
  destruct (byte_val b =? BleUartPinCtrl.GPIO_CLEAR) eqn:E3.
  { unfold BleUartPinCtrl.handle_gpio_write. rewrite Hrx, Ha. reflexivity. }
  destruct (byte_val b =? BleUartPinCtrl.GPIO_QUERY) eqn:E4.
  { destruct (byte_val b =? BleUartPinCtrl.PWM_SET) eqn:E5; [|discriminate].
    apply Z.eqb_eq in E4, E5. rewrite E4 in E5. discriminate. }
  destruct (byte_val b =? BleUartPinCtrl.PWM_SET) eqn:E5.
  { unfold BleUartPinCtrl.handle_pwm_set. rewrite Hrx, Ha. reflexivity. }
  destruct (byte_val b =? BleUartPinCtrl.QUERY_STATE) eqn:E6; [discriminate|].
  reflexivity.
Qed.

Lemma pin_ctrl_deliver_nil s : BleUartPinCtrl.deliver [] s = s.
Proof.
  unfold BleUartPinCtrl.deliver. rewrite app_nil_r. destruct s; reflexivity.
Qed.

Lemma pin_ctrl_deliver_deliver a b s :
  BleUartPinCtrl.deliver b (BleUartPinCtrl.deliver a s) =
  BleUartPinCtrl.deliver (a ++ b) s.
Proof. unfold BleUartPinCtrl.deliver. cbn. rewrite app_assoc. reflexivity. Qed.

(** As long as the FIFO stays awaiting, ticks do nothing and the bytes pile
    up. *)
Lemma pin_ctrl_run_awaiting ds : forall s,
  (forall k, (1 <= k <= length ds)%nat ->
             pin_ctrl_awaiting
               (BleUartPinCtrl.uart s ++ concat (firstn k ds)) = true) ->
  BleUartPinCtrl.run ds s = BleUartPinCtrl.deliver (concat ds) s.
Proof.
  induction ds as [|bytes ds IH]; intros s Hall.
  - cbn. symmetry. apply pin_ctrl_deliver_nil.
  - cbn [BleUartPinCtrl.run fold_left concat].
    assert (H1 : pin_ctrl_awaiting
                   (BleUartPinCtrl.uart (BleUartPinCtrl.deliver bytes s))
                 = true).
    { specialize (Hall 1%nat ltac:(cbn [length]; lia)).
      cbn in Hall. rewrite app_nil_r in Hall. exact Hall. }
    rewrite (pin_ctrl_service_awaiting _ H1).
    fold (BleUartPinCtrl.run ds (BleUartPinCtrl.deliver bytes s)).
    rewrite IH.
    + apply pin_ctrl_deliver_deliver.
    + intros k Hk. specialize (Hall (S k) ltac:(cbn [length]; lia)).
      cbn [firstn concat] in Hall.
      cbn [BleUartPinCtrl.deliver BleUartPinCtrl.uart].
      rewrite <- app_assoc. exact Hall.
Qed.

Lemma pin_ctrl_awaiting_prefix f b tl p q :
  f = b :: tl -> pin_ctrl_width b = Some (length f) ->
  p ++ q = f -> q <> [] -> pin_ctrl_awaiting p = true.
Proof.
  intros Hf Hw Hpq Hq. destruct p as [|b' p']; [reflexivity|].
  assert (Hlen : (length (b' :: p') < length f)%nat).
  { rewrite <- Hpq, length_app. destruct q; [congruence | cbn; lia]. }
  rewrite Hf in Hpq. cbn in Hpq. injection Hpq as -> _.
  unfold pin_ctrl_awaiting. rewrite Hw. apply Nat.ltb_lt. exact Hlen.
Qed.

End PinCtrlDispatch.

(** X15. Pin control, the two query opcodes: their handlers print a line
    and read nothing, so the opcode byte is never consumed. Once GPIO_QUERY
    or QUERY_STATE heads the FIFO, every tick prints the same line again,
    no command queued behind it is ever served and the FIFO only grows. *)
Theorem pin_ctrl_query_stalls b msg ds : forall s rest,
  BleUartPinCtrl.uart s = b :: rest ->
  pin_ctrl_query b = Some msg ->
  BleUartPinCtrl.run ds s =
  {| BleUartPinCtrl.uart := b :: rest ++ concat ds;
     BleUartPinCtrl.trace :=
       BleUartPinCtrl.trace s ++
       repeat (BleUartPinCtrl.SerialPrintln (BleUartPinCtrl.Text msg))
              (length ds) |}.
Proof.
  induction ds as [|bytes ds IH]; intros s rest Hrx Hq.
  - cbn. rewrite !app_nil_r, <- Hrx. destruct s; reflexivity.
  - cbn [BleUartPinCtrl.run fold_left].
    fold (BleUartPinCtrl.run ds
            (BleUartPinCtrl.service (BleUartPinCtrl.deliver bytes s))).
    assert (Hrx' : BleUartPinCtrl.uart (BleUartPinCtrl.deliver bytes s)
                   = b :: (rest ++ bytes)).
    { cbn. rewrite Hrx. reflexivity. }
    rewrite (pin_ctrl_query_tick _ b _ msg Hrx' Hq).
    rewrite (IH _ (rest ++ bytes)); [|cbn; rewrite Hrx; reflexivity | exact Hq].
    cbn [BleUartPinCtrl.emit BleUartPinCtrl.deliver BleUartPinCtrl.trace
         BleUartPinCtrl.uart concat length repeat].
    rewrite <- !app_assoc. reflexivity.
Qed.

(** A complete GPIO_SET frame queued behind a GPIO_QUERY byte is never
    served. *)
Lemma pin_ctrl_query_stalls_witness :
  let s := {| BleUartPinCtrl.uart := [x04]; BleUartPinCtrl.trace := [] |} in
  BleUartPinCtrl.run
    [[x02; x00; x00; x00; x00; x00; x00; x00; x01]; []] s =
  {| BleUartPinCtrl.uart :=
       [x04; x02; x00; x00; x00; x00; x00; x00; x00; x01];
     BleUartPinCtrl.trace :=
       [BleUartPinCtrl.SerialPrintln (BleUartPinCtrl.Text "GPIO QUERY: TODO");
        BleUartPinCtrl.SerialPrintln
          (BleUartPinCtrl.Text "GPIO QUERY: TODO")] |}.
Proof.
  intros s.
  apply (pin_ctrl_query_stalls x04 "GPIO QUERY: TODO"%string
           [[x02; x00; x00; x00; x00; x00; x00; x00; x01]; []] s []).
  - reflexivity.
  - reflexivity.
Defined.

(** X16. Pin control, frame assembly: while only a proper prefix of a frame
    is in the FIFO a tick changes nothing at all, and however the bytes of
    the frame are split over deliveries, the earlier ticks only queue them
    and the tick that completes the frame does what it would do had all the
    bytes arrived at once. *)
Theorem pin_ctrl_frame_assembly f b tl :
  f = b :: tl -> pin_ctrl_width b = Some (length f) ->
  (forall s q,
      BleUartPinCtrl.uart s ++ q = f -> q <> [] ->
      BleUartPinCtrl.service s = s) /\
  (forall s0 pre chunk rest,
      BleUartPinCtrl.uart s0 ++ concat pre ++ chunk = f -> chunk <> [] ->
      BleUartPinCtrl.run pre s0 = BleUartPinCtrl.deliver (concat pre) s0 /\
      BleUartPinCtrl.run (pre ++ [chunk ++ rest]) s0 =
      BleUartPinCtrl.service
        (BleUartPinCtrl.deliver (concat pre ++ chunk ++ rest) s0)).
Proof.
  intros Hf Hw. split.
  - intros s q Hq Hne. apply pin_ctrl_service_awaiting.
    eapply pin_ctrl_awaiting_prefix; eassumption.
  - intros s0 pre chunk rest Hall Hne.
    assert (Hpre : BleUartPinCtrl.run pre s0 =
                   BleUartPinCtrl.deliver (concat pre) s0).
    { apply pin_ctrl_run_awaiting. intros k _.
      apply (pin_ctrl_awaiting_prefix f b tl _
               (concat (skipn k pre) ++ chunk) Hf Hw).
      - rewrite <- Hall, <- app_assoc. f_equal.
        rewrite app_assoc, <- concat_app, firstn_skipn. reflexivity.
      - intros H. apply app_eq_nil in H. destruct H as [_ H]. contradiction. }
    split; [exact Hpre|].
    unfold BleUartPinCtrl.run in *. rewrite fold_left_app, Hpre.
    cbn [fold_left]. rewrite pin_ctrl_deliver_deliver. reflexivity.
Qed.

(** A GPIO_SET frame for pin 0 arriving in three pieces. *)
Lemma pin_ctrl_frame_assembly_witness :
  let s0 := {| BleUartPinCtrl.uart := []; BleUartPinCtrl.trace := [] |} in
  BleUartPinCtrl.run
    [[x02; x00]; [x00; x00; x00; x00]; [x00; x00; x01; x04]] s0 =
  BleUartPinCtrl.service
    (BleUartPinCtrl.deliver
       [x02; x00; x00; x00; x00; x00; x00; x00; x01; x04] s0).
Proof.
  intros s0.
  destruct (pin_ctrl_frame_assembly
              [x02; x00; x00; x00; x00; x00; x00; x00; x01] x02
              [x00; x00; x00; x00; x00; x00; x00; x01] eq_refl eq_refl)
    as (_ & H).
  apply (proj2 (H s0 [[x02; x00]; [x00; x00; x00; x00]] [x00; x00; x01] [x04]
                  eq_refl ltac:(discriminate))).
Defined.

(** X17. Pin control, a leading byte that is no opcode (0, or 7 and above):
    the dispatcher has no default case, so the byte is never consumed and no
    tick has any effect; the stream is blocked for good while the FIFO
    grows. *)
Theorem pin_ctrl_unknown_opcode_blocks s b rest :
  BleUartPinCtrl.uart s = b :: rest ->
  pin_ctrl_width b = None -> pin_ctrl_query b = None ->
  (byte_val b = 0 \/ 7 <= byte_val b) /\
  BleUartPinCtrl.service s = s /\
  forall ds, BleUartPinCtrl.run ds s = BleUartPinCtrl.deliver (concat ds) s.
Proof.
  intros Hrx Hw Hq.
  assert (Ha : forall extra,
             pin_ctrl_awaiting (BleUartPinCtrl.uart s ++ extra) = true).
  { intros extra. rewrite Hrx. cbn [app pin_ctrl_awaiting].
    rewrite Hw, Hq. reflexivity. }
  split; [|split].
  - pose proof (byte_val_range b) as Hr.
    unfold pin_ctrl_width in Hw. unfold pin_ctrl_query in Hq.
    destruct (Z.eqb_spec (byte_val b) BleUartPinCtrl.GPIO_CONFIGURE);
      [discriminate|].
    destruct (Z.eqb_spec (byte_val b) BleUartPinCtrl.GPIO_SET);
      [discriminate|].
    destruct (Z.eqb_spec (byte_val b) BleUartPinCtrl.GPIO_CLEAR);
      [discriminate|].
    destruct (Z.eqb_spec (byte_val b) BleUartPinCtrl.PWM_SET);
      [discriminate|].
    destruct (Z.eqb_spec (byte_val b) BleUartPinCtrl.GPIO_QUERY);
      [discriminate|].
    destruct (Z.eqb_spec (byte_val b) BleUartPinCtrl.QUERY_STATE);
      [discriminate|].
    unfold BleUartPinCtrl.GPIO_CONFIGURE, BleUartPinCtrl.GPIO_SET,
      BleUartPinCtrl.GPIO_CLEAR, BleUartPinCtrl.PWM_SET,
      BleUartPinCtrl.GPIO_QUERY, BleUartPinCtrl.QUERY_STATE in *.
    lia.
  - apply pin_ctrl_service_awaiting.
    rewrite <- (app_nil_r (BleUartPinCtrl.uart s)). apply Ha.
  - intros ds. apply pin_ctrl_run_awaiting. intros k _. apply Ha.
Qed.

Lemma pin_ctrl_unknown_opcode_blocks_witness :
  let s := {| BleUartPinCtrl.uart := [x00]; BleUartPinCtrl.trace := [] |} in
  BleUartPinCtrl.run [[x02; x00; x00; x00; x00; x00; x00; x00; x01]] s =
  {| BleUartPinCtrl.uart :=
       [x00; x02; x00; x00; x00; x00; x00; x00; x00; x01];
     BleUartPinCtrl.trace := [] |}.
Proof.
  intros s.
  destruct (pin_ctrl_unknown_opcode_blocks s x00 [] eq_refl eq_refl eq_refl)
    as (_ & _ & H).
  rewrite H. reflexivity.
Defined.
